(** * Expense sharing: the ledger, the three split methods and the balance

    A shallow embedding of [expense_app.cpp]: the registry and ledger kept by
    [ExpenseManager], the share computation of [addExpense] and the netting
    loop of [displayBalance].

    - [double] is IEEE-754 binary64, here Rocq's primitive [float] with the
      same operations (round to nearest even).
    - [int] is a 32-bit signed integer, here a [Z]; the only arithmetic done
      on it is the post-increment of the two id counters, written out with
      its two's complement wrap-around.
    - [std::map<int,double>] is a [gmap Z float]; [operator[]] reads a
      missing key as [0.0].
    - Console output is dropped, except that every error message is kept as
      the [Error] value returned; file persistence ([saveData]) does not
      touch the in-memory state and is dropped as well. *)

From Stdlib Require Import ZArith Ascii String List Bool Lia.
From Stdlib Require Import DecimalString DecimalZ DecimalPos Sorted.
From Stdlib Require Import Floats.
From Stdlib Require Import Uint63.
From stdpp Require Import gmap strings list.

Local Open Scope Z_scope.

(** ** Machine numbers *)

Abbreviation double := PrimFloat.float.

Definition int_wrap (z : Z) : Z := (z + 2 ^ 31) mod 2 ^ 32 - 2 ^ 31.

(** [x++] on an [int]: the value read is [x], the value stored is this. *)
Definition int_succ (x : Z) : Z := int_wrap (x + 1).

Definition INT_MAX : Z := 2 ^ 31 - 1.

(** Conversion of a [size_t] container size to [double], as done by
    [amount / participantIds.size()]. *)
Definition size_to_double (n : nat) : double :=
  PrimFloat.of_uint63 (Uint63.of_Z (Z.of_nat n)).

Definition d_zero : double := 0%float.
Definition d_hundred : double := 100%float.
(** The literal [0.01], that is the binary64 value nearest to it. *)
Definition d_tolerance : double := 0x1.47ae147ae147bp-7%float.

(** ** Utils *)

Module Utils.

(** [s.find(c) != string::npos] *)
Fixpoint contains (c : ascii) (s : string) : bool :=
  match s with
  | EmptyString => false
  | String a rest => if Ascii.eqb a c then true else contains c rest
  end.

Definition isValidEmail (email : string) : bool :=
  contains "@"%char email && contains "."%char email.

(** [isdigit] in the C locale. *)
Definition isdigit (c : ascii) : bool :=
  (48 <=? nat_of_ascii c)%nat && (nat_of_ascii c <=? 57)%nat.

Fixpoint all_digits (s : string) : bool :=
  match s with
  | EmptyString => true
  | String a rest => if negb (isdigit a) then false else all_digits rest
  end.

Definition isValidPhone (phone : string) : bool :=
  if (String.length phone =? 0)%nat || (String.length phone <? 10)%nat
  then false
  else all_digits phone.

End Utils.

(** ** Data model *)

Inductive SplitMethod := EQUAL | EXACT | PERCENTAGE.

Record User := mkUser {
  user_id : Z;
  user_name : string;
  user_email : string;
  user_phone : string;
  user_password : string
}.

Record ExpenseParticipant := mkParticipant {
  userId : Z;
  share : double
}.

Record Expense := mkExpense {
  expense_id : Z;
  description : string;
  amount : double;
  splitMethod : SplitMethod;
  createdBy : Z;
  createdAt : string;
  participants : list ExpenseParticipant
}.

(** The fields of [ExpenseManager]. [currentUser] points at an element of
    [users]; elements of [users] are never changed or removed, so the model
    keeps the record pointed at. *)
Record ExpenseManager := mkManager {
  users : list User;
  expenses : list Expense;
  currentUser : option User;
  nextUserId : Z;
  nextExpenseId : Z
}.

(** Every [return false] of the source prints one message; the message is
    the error returned here. *)
Inductive Error :=
  | NotLoggedIn
  | InvalidEmail
  | InvalidPhone
  | DuplicateEmail
  | InvalidCredentials
  | InvalidAmount
  | UnknownParticipant (id : Z)
  | ShareCountMismatch
  | ShareSumMismatch (total expected : double)
  | PercentageSumMismatch (total : double).

Inductive outcome (A : Type) :=
  | Ok (a : A)
  | Err (e : Error).
Arguments Ok {A} a.
Arguments Err {A} e.

(** The manager built by the constructor when no data file exists. *)
Definition initial : ExpenseManager :=
  mkManager [] [] None 1 1.

(** ** User operations *)

(** Lines 370-375: some user carries this email ([==] on [std::string]). *)
Definition email_taken (us : list User) (email : string) : bool :=
  existsb (fun u => String.eqb (user_email u) email) us.

(** [registerUser]. The source returns [true] or [false]; here [true] comes
    with the record pushed at the back of [users]. *)
Definition registerUser (st : ExpenseManager)
    (name email phone password : string) : ExpenseManager * outcome User :=
  if negb (Utils.isValidEmail email) then (st, Err InvalidEmail)
  else if negb (Utils.isValidPhone phone) then (st, Err InvalidPhone)
  else if email_taken (users st) email then (st, Err DuplicateEmail)
  else
    let newUser := mkUser (nextUserId st) name email phone password in
    (mkManager (users st ++ [newUser]) (expenses st) (currentUser st)
               (int_succ (nextUserId st)) (nextExpenseId st),
     Ok newUser).

(** [login]: the first user whose email and password both match. *)
Definition login (st : ExpenseManager) (email password : string)
    : ExpenseManager * outcome User :=
  match List.find (fun u => String.eqb (user_email u) email
                            && String.eqb (user_password u) password)
                  (users st) with
  | Some u =>
      (mkManager (users st) (expenses st) (Some u)
                 (nextUserId st) (nextExpenseId st), Ok u)
  | None => (st, Err InvalidCredentials)
  end.

Definition logout (st : ExpenseManager) : ExpenseManager :=
  mkManager (users st) (expenses st) None (nextUserId st) (nextExpenseId st).

(** ** Expense operations *)

(** Lines 441-451: the creator is pushed at the back unless some element of
    the list already equals it. *)
Definition includeCreator (participantIds : list Z) (creator : Z) : list Z :=
  if existsb (Z.eqb creator) participantIds then participantIds
  else participantIds ++ [creator].

Definition user_known (us : list User) (id : Z) : bool :=
  existsb (fun u => Z.eqb (user_id u) id) us.

(** Lines 453-466: the first participant id that no user carries. *)
Definition first_unknown (us : list User) (participantIds : list Z) : option Z :=
  List.find (fun id => negb (user_known us id)) participantIds.

(** [double total = 0; for (double s : shares) total += s;] *)
Definition sum_shares (shares : list double) : double :=
  fold_left PrimFloat.add shares d_zero.

(** [abs(total - target) > 0.01] *)
Definition off_target (total target : double) : bool :=
  PrimFloat.ltb d_tolerance (PrimFloat.abs (PrimFloat.sub total target)).

(** Lines 472-520: the participant entries of the new expense, by method. *)
Definition splitShares (amount : double) (method : SplitMethod)
    (participantIds : list Z) (shares : list double)
    : outcome (list ExpenseParticipant) :=
  match method with
  | EQUAL =>
      let shareAmount :=
        PrimFloat.div amount (size_to_double (length participantIds)) in
      Ok (map (fun id => mkParticipant id shareAmount) participantIds)
  | EXACT =>
      if negb (length shares =? length participantIds)%nat
      then Err ShareCountMismatch
      else
        let total := sum_shares shares in
        if off_target total amount then Err (ShareSumMismatch total amount)
        else Ok (zip_with mkParticipant participantIds shares)
  | PERCENTAGE =>
      if negb (length shares =? length participantIds)%nat
      then Err ShareCountMismatch
      else
        let totalPercentage := sum_shares shares in
        if off_target totalPercentage d_hundred
        then Err (PercentageSumMismatch totalPercentage)
        else Ok (zip_with
                   (fun id pct =>
                      mkParticipant id
                        (PrimFloat.mul amount (PrimFloat.div pct d_hundred)))
                   participantIds shares)
  end.

(** [addExpense]. [now] is the string [Utils::getCurrentDateTime] returns
    when the expense object is built. The id counter is post-incremented
    when the expense object is built (line 469), before the shares are
    computed. *)
Definition addExpense (st : ExpenseManager) (now : string)
    (description : string) (amount : double) (method : SplitMethod)
    (participantIds : list Z) (shares : list double)
    : ExpenseManager * outcome Expense :=
  match currentUser st with
  | None => (st, Err NotLoggedIn)
  | Some cu =>
      if PrimFloat.leb amount d_zero then (st, Err InvalidAmount)
      else
        let participantIds := includeCreator participantIds (user_id cu) in
        match first_unknown (users st) participantIds with
        | Some id => (st, Err (UnknownParticipant id))
        | None =>
            let newId := nextExpenseId st in
            let st1 := mkManager (users st) (expenses st) (currentUser st)
                                 (nextUserId st) (int_succ newId) in
            match splitShares amount method participantIds shares with
            | Err e => (st1, Err e)
            | Ok ps =>
                let newExpense :=
                  mkExpense newId description amount method (user_id cu)
                            now ps in
                (mkManager (users st1) (expenses st1 ++ [newExpense])
                           (currentUser st1) (nextUserId st1)
                           (nextExpenseId st1),
                 Ok newExpense)
            end
        end
  end.

(** ** Balance *)

(** [balance[k]], reading a missing key as [0.0]. *)
Definition entry (balance : gmap Z double) (k : Z) : double :=
  default d_zero (balance !! k).

(** Lines 593-605, one participant of an expense paid by [payer]. *)
Definition balanceStep (focal payer : Z) (balance : gmap Z double)
    (p : ExpenseParticipant) : gmap Z double :=
  if Z.eqb payer focal && negb (Z.eqb (userId p) focal)
  then <[userId p := PrimFloat.add (entry balance (userId p)) (share p)]> balance
  else if Z.eqb (userId p) focal && negb (Z.eqb payer focal)
  then <[payer := PrimFloat.sub (entry balance payer) (share p)]> balance
  else balance.

(** Lines 588-606: the map built by [displayBalance] for the user [focal]. *)
Definition computeBalance (ledger : list Expense) (focal : Z) : gmap Z double :=
  fold_left
    (fun balance expense =>
       fold_left (balanceStep focal (createdBy expense))
                 (participants expense) balance)
    ledger ∅.


(** ** The balance, counterparty by counterparty

    The balance engine as the specification words it, to be compared with
    [computeBalance]: every participant share of every expense contributes
    at most one signed amount to at most one counterparty, and the entry of
    a counterparty is what its contributions add up to, taken in ledger
    order from [0.0]; contributions accumulate, none overwrites another. *)

Inductive Delta :=
  | Credit (s : double)   (* the counterparty owes the focal user [s] more *)
  | Debit (s : double).   (* the focal user owes the counterparty [s] more *)

Definition applyDelta (acc : double) (d : Delta) : double :=
  match d with
  | Credit s => PrimFloat.add acc s
  | Debit s => PrimFloat.sub acc s
  end.

Definition flipDelta (d : Delta) : Delta :=
  match d with
  | Credit s => Debit s
  | Debit s => Credit s
  end.

(** The three cases of the algorithm for one share [p] of an expense paid by
    [payer]: whom it concerns and by how much, if anyone. *)
Definition spec_contribution (focal payer : Z) (p : ExpenseParticipant)
    : option (Z * Delta) :=
  if decide (payer = focal ∧ userId p ≠ focal)
  then Some (userId p, Credit (share p))
  else if decide (userId p = focal ∧ payer ≠ focal)
  then Some (payer, Debit (share p))
  else None.

Definition spec_contributions (focal : Z) (ledger : list Expense)
    : list (Z * Delta) :=
  flat_map
    (fun e => omap (spec_contribution focal (createdBy e)) (participants e))
    ledger.

(** One contribution entered into the map, as [balance[k] += s] or
    [balance[k] -= s] does. *)
Definition applyContribution (balance : gmap Z double) (c : Z * Delta)
    : gmap Z double :=
  <[fst c := applyDelta (entry balance (fst c)) (snd c)]> balance.

(** The amounts among [cs] that concern counterparty [k], in order. *)
Definition deltas_with (k : Z) (cs : list (Z * Delta)) : list Delta :=
  map snd (List.filter (fun c => Z.eqb (fst c) k) cs).

(** No contribution, no entry; otherwise the running total from [0.0]. *)
Definition netted (ds : list Delta) : option double :=
  match ds with
  | [] => None
  | _ => Some (fold_left applyDelta ds d_zero)
  end.

(** The entry of counterparty [k] in the balance of [focal], if any. *)
Definition spec_balance (ledger : list Expense) (focal k : Z)
    : option double :=
  netted (deltas_with k (spec_contributions focal ledger)).

(** Two amounts mirror each other when one is the negation of the other, or
    both are a zero (of either sign): the same IEEE value up to sign. *)
Definition mirrored (a b : double) : Prop :=
  a = PrimFloat.opp b ∨
  (PrimFloat.eqb a d_zero = true ∧ PrimFloat.eqb b d_zero = true).

(** The same relation on the specification floats of the standard library. *)
Definition sf_zero (A : spec_float) : Prop :=
  match A with S754_zero _ => True | _ => False end.

Definition sf_mirror (A B : spec_float) : Prop :=
  A = SFopp B ∨ (sf_zero A ∧ sf_zero B).

(** ** Sample states, built with the operations themselves *)

Module Demo.

Definition one_user : ExpenseManager :=
  fst (registerUser initial "Ann" "a@b.com" "1234567890" "pw").

Definition three_users : ExpenseManager :=
  fst (registerUser
         (fst (registerUser one_user "Bob" "b@b.com" "1234567890" "pw"))
         "Cy" "c@b.com" "1234567890" "pw").

(** Ann, Bob and Cy are registered (ids 1, 2, 3) and Ann is logged in. *)
Definition ann_logged_in : ExpenseManager :=
  fst (login three_users "a@b.com" "pw").

(** Ann paid 90 for a lunch split equally among the three. *)
Definition after_lunch : ExpenseManager :=
  fst (addExpense ann_logged_in "2024-01-01 12:00:00" "lunch" 90 EQUAL
                  [1; 2; 3] []).

(** Then Bob logged in and paid 60 for a taxi shared equally with Ann. *)
Definition after_taxi : ExpenseManager :=
  fst (addExpense (fst (login (logout after_lunch) "b@b.com" "pw"))
                  "2024-01-01 14:00:00" "taxi" 60 EQUAL [1; 2] []).

End Demo.

(** ** Vocabulary of the registration contract

    The conditions of [register] in their own words, over the characters of
    the strings, to be compared with what [registerUser] computes. *)

Definition chars (s : string) : list ascii := list_ascii_of_string s.

(** The email does not hold both an at sign and a dot. *)
Definition email_malformed (email : string) : Prop :=
  ¬ (In "@"%char (chars email) ∧ In "."%char (chars email)).

(** The phone has fewer than 10 characters, or some character of it is not
    one of the ten decimal digits. *)
Definition phone_malformed (phone : string) : Prop :=
  (String.length phone < 10)%nat ∨
  ∃ c, In c (chars phone) ∧ ¬ In c (chars "0123456789").

(** Some registered user carries exactly this email. *)
Definition email_registered (st : ExpenseManager) (email : string) : Prop :=
  ∃ u, In u (users st) ∧ user_email u = email.

(** ** Text utilities and the split method names *)

Module Text.

(** [Utils::split]: the [getline] loop over a string stream. [token] holds
    the characters extracted since the last delimiter. At the end of the
    stream [getline] succeeds only when it extracted something, so a token
    that would be empty and last is not produced. *)
Fixpoint split_go (delimiter : ascii) (str token : string) : list string :=
  match str with
  | EmptyString =>
      match token with
      | EmptyString => []
      | _ => [token]
      end
  | String c rest =>
      if Ascii.eqb c delimiter
      then token :: split_go delimiter rest EmptyString
      else split_go delimiter rest (token +:+ String c EmptyString)
  end.

Definition split (str : string) (delimiter : ascii) : list string :=
  split_go delimiter str EmptyString.

(** The text [a + d + b + d + ...] that the [serialize] functions build. *)
Fixpoint join (delimiter : ascii) (fields : list string) : string :=
  match fields with
  | [] => EmptyString
  | [f] => f
  | f :: rest => f +:+ String delimiter (join delimiter rest)
  end.

(** One of [" \t\n\r"]. *)
Definition is_blank (c : ascii) : bool :=
  Ascii.eqb c " " || Ascii.eqb c "009" || Ascii.eqb c "010"
  || Ascii.eqb c "013".

(** [str.find_first_not_of(" \t\n\r")], [None] for [npos]. *)
Fixpoint find_first_not_blank (str : string) : option nat :=
  match str with
  | EmptyString => None
  | String c rest =>
      if is_blank c then S <$> find_first_not_blank rest else Some 0%nat
  end.

(** [str.find_last_not_of(" \t\n\r")], [None] for [npos]. *)
Fixpoint find_last_not_blank (str : string) : option nat :=
  match str with
  | EmptyString => None
  | String c rest =>
      match find_last_not_blank rest with
      | Some i => Some (S i)
      | None => if is_blank c then None else Some 0%nat
      end
  end.

(** [Utils::trim]. *)
Definition trim (str : string) : string :=
  match find_first_not_blank str with
  | None => EmptyString
  | Some first =>
      match find_last_not_blank str with
      | None => EmptyString
      | Some last => String.substring first (last - first + 1) str
      end
  end.

(** Shapes of text around [trim]: made of blanks only, starting with a
    blank, ending with a blank. *)
Fixpoint all_blank (str : string) : bool :=
  match str with
  | EmptyString => true
  | String c rest => is_blank c && all_blank rest
  end.

Definition starts_blank (str : string) : bool :=
  match str with
  | EmptyString => false
  | String c _ => is_blank c
  end.

Fixpoint ends_blank (str : string) : bool :=
  match str with
  | EmptyString => false
  | String c EmptyString => is_blank c
  | String _ rest => ends_blank rest
  end.

(** [std::to_string(int)]: the decimal digits, with a minus sign for a
    negative value. *)
Definition to_string (z : Z) : string := NilZero.string_of_int (Z.to_int z).

(** [isspace] in the C locale. *)
Definition isspace (c : ascii) : bool :=
  Ascii.eqb c " " ||
  ((9 <=? nat_of_ascii c)%nat && (nat_of_ascii c <=? 13)%nat).

Fixpoint skip_space (s : string) : string :=
  match s with
  | EmptyString => EmptyString
  | String c rest => if isspace c then skip_space rest else s
  end.

(** The longest prefix of decimal digits. *)
Fixpoint digit_prefix (s : string) : Decimal.uint :=
  match s with
  | String "0" r => Decimal.D0 (digit_prefix r)
  | String "1" r => Decimal.D1 (digit_prefix r)
  | String "2" r => Decimal.D2 (digit_prefix r)
  | String "3" r => Decimal.D3 (digit_prefix r)
  | String "4" r => Decimal.D4 (digit_prefix r)
  | String "5" r => Decimal.D5 (digit_prefix r)
  | String "6" r => Decimal.D6 (digit_prefix r)
  | String "7" r => Decimal.D7 (digit_prefix r)
  | String "8" r => Decimal.D8 (digit_prefix r)
  | String "9" r => Decimal.D9 (digit_prefix r)
  | _ => Decimal.Nil
  end.

(** [std::stoi(str)]: leading white space, an optional sign, then the digits
    up to the first other character. [None] stands for the exception thrown
    when there is no digit ([invalid_argument]) or the value does not fit an
    [int] ([out_of_range]). *)
Definition stoi (str : string) : option Z :=
  let s := skip_space str in
  let '(negative, s) :=
    match s with
    | String "-" r => (true, r)
    | String "+" r => (false, r)
    | _ => (false, s)
    end in
  let digits := digit_prefix s in
  match digits with
  | Decimal.Nil => None
  | _ =>
      let v := Z.of_uint digits in
      let v := if negative then - v else v in
      if (- 2 ^ 31 <=? v) && (v <=? INT_MAX) then Some v else None
  end.

End Text.

Definition splitMethodToString (method : SplitMethod) : string :=
  match method with
  | EQUAL => "EQUAL"
  | EXACT => "EXACT"
  | PERCENTAGE => "PERCENTAGE"
  end.

Definition stringToSplitMethod (str : string) : SplitMethod :=
  if String.eqb str "EQUAL" then EQUAL
  else if String.eqb str "EXACT" then EXACT
  else if String.eqb str "PERCENTAGE" then PERCENTAGE
  else EQUAL.

(** ** The users file *)

(** [User()] *)
Definition User_default : User :=
  mkUser 0 EmptyString EmptyString EmptyString EmptyString.

(** [User::serialize] *)
Definition User_serialize (u : User) : string :=
  Text.to_string (user_id u) +:+ "|" +:+ user_name u +:+ "|" +:+
  user_email u +:+ "|" +:+ user_phone u +:+ "|" +:+ user_password u.

(** [User::deserialize]; [None] when [stoi] throws. *)
Definition User_deserialize (data : string) : option User :=
  match Text.split data "|" with
  | p0 :: p1 :: p2 :: p3 :: p4 :: _ =>
      match Text.stoi p0 with
      | Some id => Some (mkUser id p1 p2 p3 p4)
      | None => None
      end
  | _ => Some User_default
  end.

Definition newline : ascii := "010".

(** The users half of [saveData]: one line per user. *)
Definition saveUsers (us : list User) : string :=
  String.concat EmptyString
    (map (fun u => User_serialize u +:+ String newline EmptyString) us).

(** The users half of [loadData], one line of the file: empty lines and
    records whose id is not positive are skipped, and the id counter is
    raised above every id kept. *)
Definition loadUsers_line (acc : list User * Z) (line : string)
    : option (list User * Z) :=
  match line with
  | EmptyString => Some acc
  | _ =>
      match User_deserialize line with
      | None => None
      | Some user =>
          if 0 <? user_id user
          then Some (fst acc ++ [user],
                     if snd acc <=? user_id user
                     then int_wrap (user_id user + 1)
                     else snd acc)
          else Some acc
      end
  end.

(** The users half of [loadData] on the content of the users file, from the
    constructor's [users = {}] and [nextUserId = 1]. The lines are read with
    [getline], as [Utils::split] reads its tokens. *)
Definition loadUsers (content : string) : option (list User * Z) :=
  fold_left (fun acc line => acc ≫= fun a => loadUsers_line a line)
            (Text.split content newline) (Some ([], 1)).

(** A text that can stand between two delimiters on one line of a file. *)
Definition plain (s : string) : Prop :=
  Utils.contains "|" s = false ∧ Utils.contains newline s = false.

(** A user record that a line of the users file can carry. *)
Definition writable (u : User) : Prop :=
  plain (user_name u) ∧ plain (user_email u) ∧ plain (user_phone u) ∧
  plain (user_password u) ∧ user_password u ≠ EmptyString.

(** ** The expenses file

    Amounts are written with [fixed << setprecision(2)] and read back with
    [std::stod]. The two are library code working on decimal text; they are
    taken as the parameters [fixed2] and [stod] ([None] when [stod]
    throws). *)

(** A loop that converts the elements one by one and stops at the first
    exception. *)
Fixpoint collect {A B} (f : A → option B) (l : list A) : option (list B) :=
  match l with
  | [] => Some []
  | x :: rest =>
      match f x with
      | None => None
      | Some y => cons y <$> collect f rest
      end
  end.

Section ExpenseFile.

Variable fixed2 : double → string.
Variable stod : string → option double.

(** [ExpenseParticipant::serialize] *)
Definition ExpenseParticipant_serialize (p : ExpenseParticipant) : string :=
  Text.to_string (userId p) +:+ ":" +:+ fixed2 (share p).

(** [ExpenseParticipant::deserialize] *)
Definition ExpenseParticipant_deserialize (data : string)
    : option ExpenseParticipant :=
  match Text.split data ":" with
  | p0 :: p1 :: _ =>
      match Text.stoi p0 with
      | None => None
      | Some id =>
          match stod p1 with
          | None => None
          | Some s => Some (mkParticipant id s)
          end
      end
  | _ => Some (mkParticipant 0 0)
  end.

(** [Expense()] *)
Definition Expense_default : Expense :=
  mkExpense 0 EmptyString 0 EQUAL 0 EmptyString [].

(** [Expense::serialize] *)
Definition Expense_serialize (e : Expense) : string :=
  Text.to_string (expense_id e) +:+ "|" +:+ description e +:+ "|" +:+
  fixed2 (amount e) +:+ "|" +:+ splitMethodToString (splitMethod e) +:+
  "|" +:+ Text.to_string (createdBy e) +:+ "|" +:+ createdAt e +:+ "|" +:+
  Text.join "," (map ExpenseParticipant_serialize (participants e)).

(** [Expense::deserialize]; [None] when [stoi] or [stod] throws. *)
Definition Expense_deserialize (data : string) : option Expense :=
  match Text.split data "|" with
  | p0 :: p1 :: p2 :: p3 :: p4 :: p5 :: p6 :: _ =>
      match Text.stoi p0 with
      | None => None
      | Some id =>
          match stod p2 with
          | None => None
          | Some amt =>
              match Text.stoi p4 with
              | None => None
              | Some creator =>
                  match
                    match p6 with
                    | EmptyString => Some []
                    | _ => collect ExpenseParticipant_deserialize
                                   (Text.split p6 ",")
                    end
                  with
                  | None => None
                  | Some ps =>
                      Some (mkExpense id p1 amt (stringToSplitMethod p3)
                                      creator p5 ps)
                  end
              end
          end
      end
  | _ => Some Expense_default
  end.






End ExpenseFile.

(** What an expense is after its amounts went through the file, [reread]
    being what reading does to an amount that was written. *)
Definition Expense_reread (reread : double → double) (e : Expense)
    : Expense :=
  mkExpense (expense_id e) (description e) (reread (amount e))
            (splitMethod e) (createdBy e) (createdAt e)
            (map (fun p => mkParticipant (userId p) (reread (share p)))
                 (participants e)).

(** [handleAddExpense], after the console input: [choice] is the menu
    number typed for the split method, [ids] the participant ids typed, and
    [weights] the amounts or percentages typed, one per participant id, when
    the method asks for them. *)
Definition handleAddExpense (st : ExpenseManager) (now description : string)
    (amount : double) (choice : Z) (ids : list Z) (weights : list double)
    : ExpenseManager * outcome Expense :=
  let method :=
    if choice =? 1 then EQUAL
    else if choice =? 2 then EXACT
    else if choice =? 3 then PERCENTAGE
    else EQUAL in
  let shares :=
    match method with
    | EQUAL => []
    | _ => weights
    end in
  addExpense st now description amount method ids shares.

(** A text with none of the separators of the expenses file, and not
    empty. *)
Definition separator_free (s : string) : Prop :=
  Utils.contains "|" s = false ∧ Utils.contains "," s = false ∧
  Utils.contains ":" s = false ∧ Utils.contains newline s = false ∧
  s ≠ EmptyString.

(** An expense that a line of the expenses file can carry. *)
Definition fits_line (e : Expense) : Prop :=
  plain (description e) ∧ plain (createdAt e) ∧
  - 2 ^ 31 ≤ expense_id e ≤ INT_MAX ∧
  - 2 ^ 31 ≤ createdBy e ≤ INT_MAX ∧
  Forall (fun p => - 2 ^ 31 ≤ userId p ≤ INT_MAX) (participants e) ∧
  participants e ≠ [].


(** A stand-in for the library's formatting, enough for the amounts of the
    sample ledger: 30, 60 and 90 are written as the library writes them,
    and every other amount as 0.00. *)
Definition sample_fixed2 (x : double) : string :=
  if PrimFloat.eqb x 30 then "30.00"
  else if PrimFloat.eqb x 60 then "60.00"
  else if PrimFloat.eqb x 90 then "90.00"
  else "0.00".

Definition sample_stod (s : string) : option double :=
  if String.eqb s "30.00" then Some 30%float
  else if String.eqb s "60.00" then Some 60%float
  else if String.eqb s "90.00" then Some 90%float
  else if String.eqb s "0.00" then Some 0%float
  else None.

Definition sample_reread (x : double) : double :=
  if PrimFloat.eqb x 30 then 30
  else if PrimFloat.eqb x 60 then 60
  else if PrimFloat.eqb x 90 then 90
  else 0.

(** ** Views of the ledger *)

(** The loop that turns a user id into a name, with its fallback. *)
Definition resolveName (us : list User) (id : Z) : string :=
  match List.find (fun u => Z.eqb (user_id u) id) us with
  | Some u => user_name u
  | None => "Unknown"
  end.



(** Lines 660-672 of [exportBalanceToCSV]. *)
Definition isRelevant (uid : Z) (e : Expense) : bool :=
  existsb (fun p => Z.eqb (userId p) uid) (participants e)
  || Z.eqb (createdBy e) uid.



(** Lines 618-634 of [displayBalance]: what is printed for one entry of the
    balance map, if anything. *)
Inductive BalanceLine :=
  | OwesYou (userName : string) (amount : double)
  | YouOwe (userName : string) (amount : double).

Definition balanceLine (us : list User) (k : Z) (amount : double)
    : option BalanceLine :=
  if PrimFloat.ltb d_tolerance (PrimFloat.abs amount)
  then
    let userName := resolveName us k in
    Some (if PrimFloat.ltb d_zero amount
          then OwesYou userName amount
          else YouOwe userName (PrimFloat.opp amount))
  else None.

(** Expense [e] puts a debt between the focal user and the other user [k]:
    one of the two paid it and the other is among its participants. *)
Definition concerns (focal k : Z) (e : Expense) : Prop :=
  k ≠ focal ∧
  ((createdBy e = focal ∧ In k (map userId (participants e))) ∨
   (createdBy e = k ∧ In focal (map userId (participants e)))).

(** ** Sessions *)

Inductive Op :=
  | OpRegister (name email phone password : string)
  | OpLogin (email password : string)
  | OpLogout
  | OpAddExpense (now description : string) (amount : double)
                 (method : SplitMethod) (participantIds : list Z)
                 (shares : list double).

Definition apply_op (st : ExpenseManager) (op : Op) : ExpenseManager :=
  match op with
  | OpRegister name email phone password =>
      fst (registerUser st name email phone password)
  | OpLogin email password => fst (login st email password)
  | OpLogout => logout st
  | OpAddExpense now description amount method participantIds shares =>
      fst (addExpense st now description amount method participantIds shares)
  end.

(** The manager after a sequence of calls. *)
Definition run (ops : list Op) (st : ExpenseManager) : ExpenseManager :=
  fold_left apply_op ops st.

(** The calls that build [Demo.after_taxi] from a fresh manager. *)
Definition sample_session : list Op :=
  [OpRegister "Ann" "a@b.com" "1234567890" "pw";
   OpRegister "Bob" "b@b.com" "1234567890" "pw";
   OpRegister "Cy" "c@b.com" "1234567890" "pw";
   OpLogin "a@b.com" "pw";
   OpAddExpense "2024-01-01 12:00:00" "lunch" 90 EQUAL [1; 2; 3] [];
   OpLogout;
   OpLogin "b@b.com" "pw";
   OpAddExpense "2024-01-01 14:00:00" "taxi" 60 EQUAL [1; 2] []].

(** How [loadData] moves the id counter for one record kept. *)
Definition bump (next : Z) (u : User) : Z :=
  if next <=? user_id u then int_wrap (user_id u + 1) else next.

(** What [addExpense] checks about an expense before storing it. *)
Definition stored_well (us : list User) (e : Expense) : Prop :=
  In (createdBy e) (map user_id us) ∧
  Forall (fun p => In (userId p) (map user_id us)) (participants e) ∧
  In (createdBy e) (map userId (participants e)) ∧
  PrimFloat.leb (amount e) d_zero = false ∧
  (splitMethod e = EXACT →
     off_target (sum_shares (map share (participants e))) (amount e)
     = false).

(** The state of a manager that has handled at most [n] calls. *)
Definition consistent (n : Z) (st : ExpenseManager) : Prop :=
  1 ≤ nextUserId st ≤ 1 + n ∧
  1 ≤ nextExpenseId st ≤ 1 + n ∧
  map user_id (users st) = seqZ 1 (nextUserId st - 1) ∧
  NoDup (map user_email (users st)) ∧
  (∀ u, currentUser st = Some u → In u (users st)) ∧
  Forall (stored_well (users st)) (expenses st) ∧
  StronglySorted Z.lt (map expense_id (expenses st)) ∧
  Forall (fun e => 1 ≤ expense_id e < nextExpenseId st) (expenses st).

(** ** Facts about the pieces of [addExpense] *)

Section AddExpenseFacts.

Lemma includeCreator_present ids creator :
  In creator ids → includeCreator ids creator = ids.
Proof.
  intros Hin. unfold includeCreator.
  replace (existsb (Z.eqb creator) ids) with true; [done|].
  symmetry. apply existsb_exists. exists creator. split; [done|].
  apply Z.eqb_refl.
Qed.

Lemma includeCreator_absent ids creator :
  ¬ In creator ids → includeCreator ids creator = ids ++ [creator].
Proof.
  intros Hnin. unfold includeCreator.
  destruct (existsb (Z.eqb creator) ids) eqn:Hex; [|done].
  apply existsb_exists in Hex as (x & Hx & Heq).
  apply Z.eqb_eq in Heq. subst x. contradiction.
Qed.

Lemma includeCreator_In ids creator :
  In creator (includeCreator ids creator).
Proof.
  destruct (in_dec Z.eq_dec creator ids) as [Hin|Hnin].
  - by rewrite includeCreator_present.
  - rewrite includeCreator_absent by done. apply in_or_app. right. by left.
Qed.

Lemma includeCreator_length ids creator :
  (1 ≤ length (includeCreator ids creator))%nat.
Proof.
  pose proof (includeCreator_In ids creator) as Hin.
  destruct (includeCreator ids creator); [destruct Hin | simpl; lia].
Qed.

Lemma map_userId_zip_with {A} (f : Z → A → ExpenseParticipant)
    (ids : list Z) (ws : list A) :
  (∀ id w, userId (f id w) = id) →
  length ws = length ids →
  map userId (zip_with f ids ws) = ids.
Proof.
  intros Hf. revert ws.
  induction ids as [|id ids IH]; intros [|w ws] Hlen; simpl in *;
    try done.
  rewrite Hf. f_equal. apply IH. lia.
Qed.

Lemma map_share_zip_with {A} (f : Z → A → ExpenseParticipant)
    (g : A → double) (ids : list Z) (ws : list A) :
  (∀ id w, share (f id w) = g w) →
  length ws = length ids →
  map share (zip_with f ids ws) = map g ws.
Proof.
  intros Hf. revert ws.
  induction ids as [|id ids IH]; intros [|w ws] Hlen; simpl in *;
    try done.
  rewrite Hf. f_equal. apply IH. lia.
Qed.

(** Whatever the method, the entries produced follow the id list. *)
Lemma splitShares_ids amt method ids sh ps :
  splitShares amt method ids sh = Ok ps → map userId ps = ids.
Proof.
  destruct method; simpl.
  - intros [= <-]. rewrite map_map. simpl. apply map_id.
  - destruct (Nat.eqb_spec (length sh) (length ids)) as [Hlen|]; [|done].
    simpl. destruct off_target; [done|]. intros [= <-].
    by apply map_userId_zip_with.
  - destruct (Nat.eqb_spec (length sh) (length ids)) as [Hlen|]; [|done].
    simpl. destruct off_target; [done|]. intros [= <-].
    by apply map_userId_zip_with.
Qed.

(** What a successful call did. *)
Lemma addExpense_Ok_inv st now desc amt method ids sh st' e :
  addExpense st now desc amt method ids sh = (st', Ok e) →
  ∃ cu ps,
    currentUser st = Some cu ∧
    PrimFloat.leb amt d_zero = false ∧
    first_unknown (users st) (includeCreator ids (user_id cu)) = None ∧
    splitShares amt method (includeCreator ids (user_id cu)) sh = Ok ps ∧
    e = mkExpense (nextExpenseId st) desc amt method (user_id cu) now ps ∧
    st' = mkManager (users st) (expenses st ++ [e]) (currentUser st)
                    (nextUserId st) (int_succ (nextExpenseId st)).
Proof.
  unfold addExpense.
  destruct (currentUser st) as [cu|] eqn:Hcu; [|done].
  destruct (PrimFloat.leb amt d_zero) eqn:Hamt; [done|].
  destruct (first_unknown _ _) eqn:Hunk; [done|].
  destruct (splitShares _ _ _ _) as [ps|err] eqn:Hsplit; [|done].
  simpl. intros [= <- <-]. by exists cu, ps.
Qed.

(** A call that passes the login, amount and participant checks is decided
    by the share computation. *)
Lemma addExpense_reaches_split st now desc amt method ids sh cu :
  currentUser st = Some cu →
  PrimFloat.leb amt d_zero = false →
  first_unknown (users st) (includeCreator ids (user_id cu)) = None →
  addExpense st now desc amt method ids sh =
    let st1 := mkManager (users st) (expenses st) (currentUser st)
                         (nextUserId st) (int_succ (nextExpenseId st)) in
    match splitShares amt method (includeCreator ids (user_id cu)) sh with
    | Err err => (st1, Err err)
    | Ok ps =>
        let e := mkExpense (nextExpenseId st) desc amt method (user_id cu)
                           now ps in
        (mkManager (users st) (expenses st ++ [e]) (currentUser st)
                   (nextUserId st) (int_succ (nextExpenseId st)), Ok e)
    end.
Proof.
  intros Hcu Hamt Hunk. unfold addExpense. rewrite Hcu, Hamt, Hunk.
  by destruct (splitShares _ _ _ _).
Qed.

(** A failed call leaves everything but the id counter as it was. *)
Lemma addExpense_Err_inv st now desc amt method ids sh st' err :
  addExpense st now desc amt method ids sh = (st', Err err) →
  users st' = users st ∧ expenses st' = expenses st ∧
  currentUser st' = currentUser st ∧ nextUserId st' = nextUserId st ∧
  (nextExpenseId st' = nextExpenseId st ∨
   nextExpenseId st' = int_succ (nextExpenseId st)).
Proof.
  unfold addExpense.
  destruct (currentUser st) as [cu|] eqn:Hcu.
  2:{ intros [= <- _]. auto 6. }
  destruct (PrimFloat.leb amt d_zero).
  { intros [= <- _]. auto 6. }
  destruct (first_unknown _ _).
  { intros [= <- _]. auto 6. }
  destruct (splitShares _ _ _ _) as [ps|e]; [done|].
  intros [= <- _]. simpl. auto 6.
Qed.

End AddExpenseFacts.

(** ** Facts about the EXACT and PERCENTAGE computations *)

Section WeightedSplits.

Variables (amt : double) (ids : list Z) (ws : list double).

Lemma exact_count_mismatch :
  length ws ≠ length ids →
  splitShares amt EXACT ids ws = Err ShareCountMismatch.
Proof.
  intros Hlen. simpl.
  by destruct (Nat.eqb_spec (length ws) (length ids)).
Qed.

Lemma exact_same_count :
  length ws = length ids →
  splitShares amt EXACT ids ws =
    if off_target (sum_shares ws) amt
    then Err (ShareSumMismatch (sum_shares ws) amt)
    else Ok (zip_with mkParticipant ids ws).
Proof.
  intros Hlen. simpl.
  by destruct (Nat.eqb_spec (length ws) (length ids)).
Qed.

Lemma percentage_count_mismatch :
  length ws ≠ length ids →
  splitShares amt PERCENTAGE ids ws = Err ShareCountMismatch.
Proof.
  intros Hlen. simpl.
  by destruct (Nat.eqb_spec (length ws) (length ids)).
Qed.

Lemma percentage_same_count :
  length ws = length ids →
  splitShares amt PERCENTAGE ids ws =
    if off_target (sum_shares ws) d_hundred
    then Err (PercentageSumMismatch (sum_shares ws))
    else Ok (zip_with
               (fun id pct =>
                  mkParticipant id
                    (PrimFloat.mul amt (PrimFloat.div pct d_hundred)))
               ids ws).
Proof.
  intros Hlen. simpl.
  by destruct (Nat.eqb_spec (length ws) (length ids)).
Qed.

End WeightedSplits.

(** The outcome of a call that passes the login, amount and participant
    checks, read off the share computation. *)
Lemma addExpense_outcome st now desc amt method ids sh cu :
  currentUser st = Some cu →
  PrimFloat.leb amt d_zero = false →
  first_unknown (users st) (includeCreator ids (user_id cu)) = None →
  snd (addExpense st now desc amt method ids sh) =
    match splitShares amt method (includeCreator ids (user_id cu)) sh with
    | Err err => Err err
    | Ok ps =>
        Ok (mkExpense (nextExpenseId st) desc amt method (user_id cu) now ps)
    end.
Proof.
  intros Hcu Hamt Hunk.
  rewrite (addExpense_reaches_split _ _ _ _ _ _ _ cu) by done.
  simpl. by destruct (splitShares _ _ _ _).
Qed.

(** ** Facts about the registration checks *)

Section RegistrationFacts.

Lemma contains_In c s : Utils.contains c s = true ↔ In c (chars s).
Proof.
  induction s as [|a rest IH]; simpl.
  - split; [discriminate | tauto].
  - destruct (Ascii.eqb_spec a c) as [->|Hne].
    + split; auto.
    + rewrite IH. split; [auto|]. intros [Heq|Hin]; [contradiction|done].
Qed.

Lemma isValidEmail_false email :
  Utils.isValidEmail email = false ↔ email_malformed email.
Proof.
  unfold Utils.isValidEmail, email_malformed.
  rewrite <- !contains_In.
  destruct (Utils.contains "@" email), (Utils.contains "." email);
    simpl; split; try done; try (intros _ [? ?]; done).
  intros H. exfalso. by apply H.
Qed.

Lemma isdigit_In c :
  Utils.isdigit c = true ↔ In c (chars "0123456789").
Proof.
  split.
  - unfold Utils.isdigit. intros Hd.
    apply andb_true_iff in Hd as [Hlo Hhi].
    apply Nat.leb_le in Hlo, Hhi.
    rewrite <- (ascii_nat_embedding c).
    remember (nat_of_ascii c) as n eqn:Hn. clear Hn.
    do 48 (destruct n as [|n]; [lia|]).
    do 10 (destruct n as [|n]; [simpl; tauto|]).
    lia.
  - simpl. intros H.
    repeat (destruct H as [<-|H]; [reflexivity|]). destruct H.
Qed.

Lemma all_digits_spec s :
  Utils.all_digits s = true ↔ ∀ c, In c (chars s) → Utils.isdigit c = true.
Proof.
  induction s as [|a rest IH]; simpl.
  - split; [intros _ c []|done].
  - destruct (Utils.isdigit a) eqn:Ha; simpl.
    + rewrite IH. split.
      * intros H c [<-|Hc]; auto.
      * intros H c Hc. apply H. by right.
    + split; [done|]. intros H.
      specialize (H a (or_introl eq_refl)). congruence.
Qed.

Lemma all_digits_false s :
  Utils.all_digits s = false →
  ∃ c, In c (chars s) ∧ Utils.isdigit c = false.
Proof.
  induction s as [|a rest IH]; simpl; [discriminate|].
  destruct (Utils.isdigit a) eqn:Ha; simpl.
  - intros Hrest. destruct (IH Hrest) as (c & Hc & Hnd).
    exists c. split; [by right|done].
  - intros _. exists a. split; [by left|done].
Qed.

Lemma isValidPhone_false phone :
  Utils.isValidPhone phone = false ↔ phone_malformed phone.
Proof.
  unfold Utils.isValidPhone, phone_malformed.
  destruct (Nat.ltb_spec (String.length phone) 10) as [Hlt|Hge].
  - rewrite orb_true_r. split; auto.
  - replace (String.length phone =? 0)%nat with false
      by (symmetry; apply Nat.eqb_neq; lia).
    simpl. split.
    + intros Hall. right.
      destruct (all_digits_false phone Hall) as (c & Hc & Hnd).
      exists c. split; [done|].
      intros Hin. apply (proj2 (isdigit_In c)) in Hin. congruence.
    + intros [Hlt|(c & Hc & Hnd)]; [lia|].
      destruct (Utils.all_digits phone) eqn:Hall; [|done].
      exfalso. apply Hnd. apply isdigit_In.
      by apply (proj1 (all_digits_spec phone)).
Qed.

Lemma email_taken_spec st email :
  email_taken (users st) email = true ↔ email_registered st email.
Proof.
  unfold email_taken, email_registered. rewrite existsb_exists.
  split; intros (u & Hu & He); exists u; split; try done.
  - by apply String.eqb_eq.
  - by apply String.eqb_eq.
Qed.

End RegistrationFacts.

(** Closes or simplifies a goal by reading the outcomes among the
    hypotheses. *)
Ltac by_outcome :=
  repeat match goal with
         | H : ∃ _ : User, _ |- _ => destruct H
         | H : @Ok _ _ = Err _ |- _ => discriminate H
         | H : @Err _ _ = Ok _ |- _ => discriminate H
         | H : @Ok _ _ = Ok _ |- _ => injection H as <-
         end;
  try done.

Lemma int_succ_in_range x :
  - 2 ^ 31 ≤ x < INT_MAX → int_succ x = x + 1.
Proof.
  unfold int_succ, int_wrap, INT_MAX. intros Hx.
  rewrite Z.mod_small by lia. lia.
Qed.

(** ** Negation and rounding

    Rounding to nearest even treats the sign apart from the magnitude, so
    negating the operands of a sum negates the result, except that an exact
    cancellation gives [+0.0] either way. *)

Section MirrorFacts.

Lemma binary_round_aux_opp s m e l :
  binary_round_aux prec emax (negb s) m e l
  = SFopp (binary_round_aux prec emax s m e l).
Proof.
  unfold binary_round_aux.
  destruct (shr_fexp prec emax m e l) as [mrs' e'].
  destruct (shr_fexp prec emax _ e' loc_Exact) as [mrs'' e''].
  destruct (shr_m mrs'') as [|p|p]; simpl; try reflexivity.
  destruct (e'' <=? emax - prec); reflexivity.
Qed.

Lemma binary_round_opp s m e :
  binary_round prec emax (negb s) m e = SFopp (binary_round prec emax s m e).
Proof.
  unfold binary_round.
  destruct (shl_align m e _) as [mz ez]. apply binary_round_aux_opp.
Qed.

Lemma binary_normalize_opp m e :
  sf_mirror (binary_normalize prec emax (- m) e false)
            (binary_normalize prec emax m e false).
Proof.
  destruct m as [|p|p]; simpl.
  - right. split; exact I.
  - left. apply (binary_round_opp false).
  - left. change false with (negb true) at 1. apply binary_round_opp.
Qed.

Lemma SFopp_involutive A : SFopp (SFopp A) = A.
Proof. destruct A; simpl; rewrite ?negb_involutive; reflexivity. Qed.

Lemma sf_mirror_sym A B : sf_mirror A B → sf_mirror B A.
Proof.
  intros [->|[HA HB]]; [left|right].
  - symmetry. apply SFopp_involutive.
  - split; assumption.
Qed.

Lemma SFadd_SFsub_mirror A B S :
  sf_mirror A B → sf_mirror (SF64add A S) (SF64sub B S).
Proof.
  unfold SF64add, SF64sub.
  intros [->|[HA HB]].
  - destruct B as [sb|sb| |sb mb eb], S as [ss|ss| |ss ms es];
      try (left; reflexivity);
      try (destruct sb, ss; simpl;
           (left; reflexivity) || (right; split; exact I)).
    simpl.
    set (ez := Z.min eb es).
    replace (cond_Zopp (negb sb) (Z.pos (fst (shl_align mb eb ez)))
             + cond_Zopp ss (Z.pos (fst (shl_align ms es ez))))
      with (- (cond_Zopp sb (Z.pos (fst (shl_align mb eb ez)))
               - cond_Zopp ss (Z.pos (fst (shl_align ms es ez))))).
    + apply binary_normalize_opp.
    + destruct sb, ss; simpl; lia.
  - destruct A as [sa| | |]; try destruct HA.
    destruct B as [sb| | |]; try destruct HB.
    destruct S as [ss|ss| |ss ms es].
    + right. destruct sa, sb, ss; simpl; split; exact I.
    + left. simpl. by rewrite negb_involutive.
    + by left.
    + left. simpl. by rewrite negb_involutive.
Qed.

Lemma eqb_zero_sf a :
  PrimFloat.eqb a d_zero = true ↔ sf_zero (Prim2SF a).
Proof.
  rewrite FloatAxioms.eqb_spec.
  change (Prim2SF d_zero) with (S754_zero false).
  destruct (Prim2SF a) as [s|s| |s m e]; simpl; try destruct s;
    split; try done.
Qed.

Lemma opp_sf a b : a = PrimFloat.opp b ↔ Prim2SF a = SFopp (Prim2SF b).
Proof.
  rewrite <- FloatAxioms.opp_spec. split; [by intros ->|apply Prim2SF_inj].
Qed.

Lemma mirrored_sf a b : mirrored a b ↔ sf_mirror (Prim2SF a) (Prim2SF b).
Proof.
  unfold mirrored, sf_mirror. by rewrite opp_sf, !eqb_zero_sf.
Qed.

Lemma mirrored_zero : mirrored d_zero d_zero.
Proof. right. split; reflexivity. Qed.

Lemma mirrored_sym a b : mirrored a b → mirrored b a.
Proof. rewrite !mirrored_sf. apply sf_mirror_sym. Qed.

Lemma mirrored_add_sub a b s :
  mirrored a b → mirrored (PrimFloat.add a s) (PrimFloat.sub b s).
Proof.
  rewrite !mirrored_sf, FloatAxioms.add_spec, FloatAxioms.sub_spec. apply SFadd_SFsub_mirror.
Qed.

Lemma mirrored_sub_add a b s :
  mirrored a b → mirrored (PrimFloat.sub a s) (PrimFloat.add b s).
Proof.
  intros H. apply mirrored_sym, mirrored_add_sub, mirrored_sym, H.
Qed.

Lemma mirrored_applyDelta a b d :
  mirrored a b → mirrored (applyDelta a (flipDelta d)) (applyDelta b d).
Proof.
  destruct d; simpl; [apply mirrored_sub_add | apply mirrored_add_sub].
Qed.

Lemma mirrored_fold ds : ∀ a b,
  mirrored a b →
  mirrored (fold_left applyDelta (map flipDelta ds) a)
           (fold_left applyDelta ds b).
Proof.
  induction ds as [|d ds IH]; intros a b Hab; simpl; [done|].
  by apply IH, mirrored_applyDelta.
Qed.

(** IEEE comparison of a value with itself fails only on NaN. *)
Lemma SFeqb_refl A : SFeqb A A = true ∨ A = S754_nan.
Proof.
  destruct A as [s|s| |s m e]; try (left; by destruct s); [by right|].
  left. unfold SFeqb. simpl.
  rewrite Z.compare_refl, Pos.compare_cont_refl. by destruct s.
Qed.

Lemma is_nan_sf a : PrimFloat.is_nan a = true ↔ Prim2SF a = S754_nan.
Proof.
  unfold PrimFloat.is_nan. rewrite FloatAxioms.eqb_spec.
  destruct (SFeqb_refl (Prim2SF a)) as [Hr| ->]; [|done].
  rewrite Hr. split; [done|]. intros Hn. rewrite Hn in Hr. done.
Qed.

(** Mirrored amounts compare equal after negation, as [==] on [double]
    does, unless both are NaN. *)
Lemma mirrored_eqb a b :
  mirrored a b →
  PrimFloat.eqb a (PrimFloat.opp b) = true ∨
  (PrimFloat.is_nan a = true ∧ PrimFloat.is_nan b = true).
Proof.
  rewrite mirrored_sf, FloatAxioms.eqb_spec, FloatAxioms.opp_spec, !is_nan_sf.
  intros [->|[HA HB]].
  - destruct (SFeqb_refl (SFopp (Prim2SF b))) as [Hr|Hn]; [by left|].
    right. split; [done|]. by destruct (Prim2SF b).
  - left. destruct (Prim2SF a), (Prim2SF b); by try done.
Qed.

End MirrorFacts.

(** ** Conversion of a count to [double]

    Rounding a positive integer to binary64 never gives zero: shifting the
    mantissa to the format's precision keeps its leading bit. *)

Section RoundingFacts.

Lemma shr_1_m r : 0 ≤ shr_m r → shr_m (shr_1 r) = shr_m r / 2.
Proof.
  destruct r as [m b s]. simpl. intros Hm.
  destruct m as [|[p|p|]|p]; simpl; try reflexivity; try lia.
  - rewrite Pos2Z.inj_xI. apply Z.div_unique with 1; lia.
  - rewrite Pos2Z.inj_xO. apply Z.div_unique with 0; lia.
Qed.

Lemma iter_shr_1_m n : ∀ r,
  0 ≤ shr_m r → shr_m (SpecFloat.iter_pos shr_1 n r) = shr_m r / 2 ^ Z.pos n.
Proof.
  assert (Hnn : ∀ r, 0 ≤ shr_m r → 0 ≤ shr_m r / 2).
  { intros r Hr. apply Z.div_pos; lia. }
  induction n as [n IH|n IH|]; intros r Hr; simpl.
  - assert (H1 : 0 ≤ shr_m (shr_1 r)) by (rewrite shr_1_m; auto).
    assert (H2 : 0 ≤ shr_m (SpecFloat.iter_pos shr_1 n (shr_1 r))).
    { rewrite IH by done. apply Z.div_pos; lia. }
    rewrite IH, IH, shr_1_m by done.
    rewrite !Z.div_div by lia. f_equal.
    replace (Z.pos n~1) with (1 + Z.pos n + Z.pos n) by lia.
    rewrite !Z.pow_add_r, Z.pow_1_r by lia. ring.
  - assert (H2 : 0 ≤ shr_m (SpecFloat.iter_pos shr_1 n r)).
    { rewrite IH by done. apply Z.div_pos; lia. }
    rewrite IH, IH by done.
    rewrite !Z.div_div by lia. f_equal.
    replace (Z.pos n~0) with (Z.pos n + Z.pos n) by lia.
    by rewrite !Z.pow_add_r by lia.
  - rewrite shr_1_m by done. by rewrite Z.pow_1_r.
Qed.

Lemma digits2_pos_lower m : 2 ^ (Z.pos (digits2_pos m) - 1) ≤ Z.pos m.
Proof.
  induction m as [m IH|m IH|]; simpl; [| |done].
  - rewrite Pos2Z.inj_succ.
    replace (Z.succ (Z.pos (digits2_pos m)) - 1)
      with (Z.succ (Z.pos (digits2_pos m) - 1)) by lia.
    rewrite Z.pow_succ_r by lia. lia.
  - rewrite Pos2Z.inj_succ.
    replace (Z.succ (Z.pos (digits2_pos m)) - 1)
      with (Z.succ (Z.pos (digits2_pos m) - 1)) by lia.
    rewrite Z.pow_succ_r by lia. lia.
Qed.

(** Shifting to the format's exponent never loses the whole mantissa when
    the exponent is at least [emin]. *)
Lemma shr_fexp_pos m e l :
  SpecFloat.emin prec emax ≤ e →
  0 < shr_m (fst (shr_fexp prec emax (Z.pos m) e l)) ∧
  SpecFloat.emin prec emax ≤ snd (shr_fexp prec emax (Z.pos m) e l).
Proof.
  intros He. unfold shr_fexp, shr. simpl Zdigits2.
  assert (Hrec : shr_m (shr_record_of_loc (Z.pos m) l) = Z.pos m).
  { by destruct l as [|[]]. }
  destruct (fexp prec emax (Z.pos (digits2_pos m) + e) - e) as [|k|k] eqn:Hk;
    simpl; rewrite ?Hrec; try (split; lia).
  rewrite iter_shr_1_m by (rewrite Hrec; lia). rewrite Hrec.
  split; [|lia].
  apply Z.div_str_pos. split; [lia|].
  etransitivity; [|apply digits2_pos_lower].
  apply Z.pow_le_mono_r; [lia|].
  unfold fexp, SpecFloat.emin, prec, emax in *. lia.
Qed.

Lemma round_nearest_even_pos m l : 0 < m → 0 < round_nearest_even m l.
Proof.
  intros Hm. destruct l as [|[]]; simpl; try lia.
  destruct (Z.even m); lia.
Qed.

Lemma binary_round_aux_nonzero s m e l :
  SpecFloat.emin prec emax ≤ e →
  ¬ sf_zero (binary_round_aux prec emax s (Z.pos m) e l).
Proof.
  intros He. unfold binary_round_aux.
  destruct (shr_fexp_pos m e l He) as [Hm1 He1].
  destruct (shr_fexp prec emax (Z.pos m) e l) as [mrs' e']. simpl in Hm1, He1.
  pose proof (round_nearest_even_pos _ (loc_of_shr_record mrs') Hm1) as Hm2.
  destruct (round_nearest_even (shr_m mrs') (loc_of_shr_record mrs'))
    as [|q|q]; try lia.
  destruct (shr_fexp_pos q e' loc_Exact He1) as [Hm3 _].
  destruct (shr_fexp prec emax (Z.pos q) e' loc_Exact) as [mrs'' e''].
  simpl in Hm3.
  destruct (shr_m mrs'') as [|q'|q']; try lia.
  destruct (e'' <=? emax - prec); simpl; tauto.
Qed.

Lemma binary_round_nonzero s m :
  ¬ sf_zero (binary_round prec emax s m 0).
Proof.
  unfold binary_round, shl_align.
  set (e' := fexp prec emax (Z.pos (digits2_pos m) + 0)).
  assert (He' : SpecFloat.emin prec emax ≤ e') by (unfold e', fexp; lia).
  destruct (e' - 0) as [|d|d]; apply binary_round_aux_nonzero; try done;
    unfold SpecFloat.emin, prec, emax; lia.
Qed.

(** A container size below [2^63] converts to a [double] that is not a
    zero. *)
Lemma size_to_double_nonzero n :
  (0 < n)%nat → Z.of_nat n < 2 ^ 63 →
  PrimFloat.eqb (size_to_double n) d_zero = false.
Proof.
  intros Hpos Hlt. unfold size_to_double.
  destruct (PrimFloat.eqb _ d_zero) eqn:Heq; [|done]. exfalso.
  rewrite FloatAxioms.eqb_spec, of_uint63_spec, Uint63.of_Z_spec in Heq.
  change wB with (2 ^ 63) in Heq. rewrite Z.mod_small in Heq by lia.
  destruct (Z.of_nat n) as [|p|p] eqn:Hn; try lia.
  simpl binary_normalize in Heq.
  apply (binary_round_nonzero false p).
  change (Prim2SF d_zero) with (S754_zero false) in Heq.
  by destruct (binary_round prec emax false p 0) as [?|[]| |[]].
Qed.

End RoundingFacts.

(** ** The netting loop, one counterparty at a time *)

Section BalanceFacts.

Lemma entry_insert_eq (balance : gmap Z double) k v :
  entry (<[k := v]> balance) k = v.
Proof. unfold entry. by rewrite lookup_insert_eq. Qed.

Lemma entry_insert_ne (balance : gmap Z double) k k' v :
  k' ≠ k → entry (<[k' := v]> balance) k = entry balance k.
Proof. intros Hne. unfold entry. by rewrite lookup_insert_ne. Qed.

Lemma balanceStep_contribution focal payer balance p :
  balanceStep focal payer balance p =
    match spec_contribution focal payer p with
    | Some c => applyContribution balance c
    | None => balance
    end.
Proof.
  unfold balanceStep, spec_contribution, applyContribution.
  destruct (Z.eqb_spec payer focal), (Z.eqb_spec (userId p) focal);
    simpl; repeat case_decide; try done; tauto.
Qed.

Lemma fold_balanceStep focal payer ps : ∀ balance,
  fold_left (balanceStep focal payer) ps balance =
  fold_left applyContribution (omap (spec_contribution focal payer) ps) balance.
Proof.
  induction ps as [|p ps IH]; intros balance; simpl; [done|].
  rewrite IH, balanceStep_contribution.
  by destruct (spec_contribution focal payer p).
Qed.

Lemma fold_expenses focal ledger : ∀ balance,
  fold_left
    (fun balance expense =>
       fold_left (balanceStep focal (createdBy expense))
                 (participants expense) balance)
    ledger balance =
  fold_left applyContribution (spec_contributions focal ledger) balance.
Proof.
  induction ledger as [|e ledger IH]; intros balance; simpl; [done|].
  by rewrite IH, fold_left_app, fold_balanceStep.
Qed.

Lemma computeBalance_contributions ledger focal :
  computeBalance ledger focal =
  fold_left applyContribution (spec_contributions focal ledger) ∅.
Proof. apply fold_expenses. Qed.

Lemma lookup_fold_contributions k cs : ∀ (balance : gmap Z double),
  fold_left applyContribution cs balance !! k =
    match deltas_with k cs with
    | [] => balance !! k
    | ds => Some (fold_left applyDelta ds (entry balance k))
    end.
Proof.
  induction cs as [|[k' d] cs IH]; intros balance; [done|].
  simpl. rewrite IH. unfold deltas_with, applyContribution. simpl.
  destruct (Z.eqb_spec k' k) as [->|Hne]; simpl.
  - rewrite entry_insert_eq, lookup_insert_eq.
    by destruct (map snd _).
  - rewrite entry_insert_ne, lookup_insert_ne by done.
    by destruct (map snd _).
Qed.

Lemma lookup_computeBalance ledger focal k :
  computeBalance ledger focal !! k = spec_balance ledger focal k.
Proof.
  rewrite computeBalance_contributions, lookup_fold_contributions.
  unfold spec_balance, netted. by destruct (deltas_with _ _).
Qed.

Lemma computeBalance_app ledger e focal :
  computeBalance (ledger ++ [e]) focal =
  fold_left (balanceStep focal (createdBy e)) (participants e)
            (computeBalance ledger focal).
Proof. unfold computeBalance. by rewrite fold_left_app. Qed.

(** Seen from the other side, the same shares count with the other sign. *)
Lemma contribution_flip X Y payer p :
  X ≠ Y →
  deltas_with Y (option_list (spec_contribution X payer p)) =
  map flipDelta (deltas_with X (option_list (spec_contribution Y payer p))).
Proof.
  intros Hne. unfold spec_contribution, deltas_with.
  repeat case_decide; simpl;
    repeat (match goal with
            | |- context [Z.eqb ?a ?b] => destruct (Z.eqb_spec a b)
            end; simpl);
    try done; lia.
Qed.

Lemma deltas_with_app k cs1 cs2 :
  deltas_with k (cs1 ++ cs2) = deltas_with k cs1 ++ deltas_with k cs2.
Proof. unfold deltas_with. by rewrite List.filter_app, map_app. Qed.

Lemma omap_cons_app {A B} (f : A → option B) a l :
  omap f (a :: l) = option_list (f a) ++ omap f l.
Proof. simpl. by destruct (f a). Qed.

Lemma omap_flip X Y payer ps :
  X ≠ Y →
  deltas_with Y (omap (spec_contribution X payer) ps) =
  map flipDelta (deltas_with X (omap (spec_contribution Y payer) ps)).
Proof.
  intros Hne. induction ps as [|p ps IH]; [done|].
  rewrite !omap_cons_app, !deltas_with_app, map_app, IH.
  by rewrite contribution_flip.
Qed.

Lemma contributions_flip X Y ledger :
  X ≠ Y →
  deltas_with Y (spec_contributions X ledger) =
  map flipDelta (deltas_with X (spec_contributions Y ledger)).
Proof.
  intros Hne. induction ledger as [|e ledger IH]; [done|].
  unfold spec_contributions in *. simpl.
  by rewrite !deltas_with_app, map_app, IH, omap_flip.
Qed.

End BalanceFacts.

(** ** The balance of a user *)

(** C1. [computeBalance] starts from the empty map and scans the expenses in
    ledger order, each with payer = creator, and every participant share
    [(participantId, share)] in turn: when the payer is the focal user and
    the participant is not, [share] is added to the entry of
    [participantId]; when the participant is the focal user and the payer is
    not, [share] is subtracted from the entry of [payer]; otherwise the map
    is unchanged (a missing entry counts as [0.0]). Contributions accumulate:
    the entry of a counterparty is the running total, from [0.0], of all the
    amounts that concern it, and there is no entry where nothing concerns
    it. For the ledger with the one expense "creator 1 pays 90, EQUAL among
    1, 2, 3", the balance of user 2 is {1: -30} and the balance of user 1 is
    {2: 30, 3: 30}. *)
Theorem computeBalance_netting :
  (∀ focal payer balance p,
     (payer = focal ∧ userId p ≠ focal →
        balanceStep focal payer balance p =
          <[userId p := PrimFloat.add (entry balance (userId p)) (share p)]>
            balance) ∧
     (userId p = focal ∧ payer ≠ focal →
        balanceStep focal payer balance p =
          <[payer := PrimFloat.sub (entry balance payer) (share p)]>
            balance) ∧
     ((payer = focal ↔ userId p = focal) →
        balanceStep focal payer balance p = balance)) ∧
  (∀ focal, computeBalance [] focal = ∅) ∧
  (∀ ledger e focal,
     computeBalance (ledger ++ [e]) focal =
       fold_left (balanceStep focal (createdBy e)) (participants e)
                 (computeBalance ledger focal)) ∧
  (∀ ledger focal k,
     computeBalance ledger focal !! k = spec_balance ledger focal k) ∧
  (let ledger :=
     [mkExpense 1 "lunch" 90 EQUAL 1 "2024-01-01 12:00:00"
        [mkParticipant 1 30; mkParticipant 2 30; mkParticipant 3 30]] in
   expenses Demo.after_lunch = ledger ∧
   computeBalance ledger 2 = {[1 := (-30)%float]} ∧
   computeBalance ledger 1 = <[2 := 30%float]> {[3 := 30%float]}).
Proof.
  split; [|split; [|split; [|split]]].
  - intros focal payer balance p. unfold balanceStep.
    destruct (Z.eqb_spec payer focal), (Z.eqb_spec (userId p) focal);
      simpl; repeat split; try done; tauto.
  - done.
  - apply computeBalance_app.
  - apply lookup_computeBalance.
  - split; [reflexivity|].
    split; apply map_eq; intros k; rewrite lookup_computeBalance;
      unfold spec_balance.
    + destruct (decide (k = 1)) as [->|Hk].
      * by rewrite lookup_singleton_eq.
      * rewrite lookup_singleton_ne by done.
        change (spec_contributions 2 _) with [(1, Debit 30)].
        unfold deltas_with. cbn -[Z.eqb].
        by destruct (Z.eqb_spec 1 k).
    + destruct (decide (k = 2)) as [->|Hk2].
      * by rewrite lookup_insert_eq.
      * rewrite lookup_insert_ne by done.
        destruct (decide (k = 3)) as [->|Hk3].
        -- by rewrite lookup_singleton_eq.
        -- rewrite lookup_singleton_ne by done.
           change (spec_contributions 1 _)
             with [(2, Credit 30); (3, Credit 30)].
           unfold deltas_with. cbn -[Z.eqb].
           by destruct (Z.eqb_spec 2 k), (Z.eqb_spec 3 k).
Qed.

(** ** EQUAL *)

(** C2. A successful EQUAL creation stores one entry per participant id of
    the list after creator inclusion, in the order of that list; with [N] the
    length of that list, the entry list has length [N] and every share, the
    last one included, is the one quotient [amount / N]. *)
Theorem equal_split_shares st now desc amt ids sh st' e :
  addExpense st now desc amt EQUAL ids sh = (st', Ok e) →
  ∃ cu,
    currentUser st = Some cu ∧
    let ps := includeCreator ids (user_id cu) in
    let N := length ps in
    length (participants e) = N ∧
    map userId (participants e) = ps ∧
    (∀ p, In p (participants e) →
          share p = PrimFloat.div amt (size_to_double N)) ∧
    participants e =
      map (fun id => mkParticipant id (PrimFloat.div amt (size_to_double N)))
          ps.
Proof.
  intros Hok.
  apply addExpense_Ok_inv in Hok
    as (cu & ps & Hcu & _ & _ & Hsplit & -> & _).
  exists cu. split; [done|]. simpl in *. injection Hsplit as <-.
  repeat split.
  - by rewrite length_map.
  - rewrite map_map. simpl. apply map_id.
  - intros p Hp. apply in_map_iff in Hp as (id & <- & _). done.
Qed.

Lemma equal_split_shares_witness :
  let call :=
    addExpense Demo.ann_logged_in "2024-01-01 12:00:00" "lunch" 90 EQUAL
               [1; 2; 3] [] in
  ∃ e, call = (fst call, Ok e) ∧
       participants e =
         [mkParticipant 1 30; mkParticipant 2 30; mkParticipant 3 30].
Proof.
  intros call.
  destruct (equal_split_shares
              Demo.ann_logged_in "2024-01-01 12:00:00" "lunch" 90%float
              [1; 2; 3] [] (fst call)
              (mkExpense 1 "lunch" 90 EQUAL 1 "2024-01-01 12:00:00"
                 [mkParticipant 1 30; mkParticipant 2 30; mkParticipant 3 30])
              eq_refl)
    as (cu & Hcu & _ & _ & _ & Hps).
  eexists. split; [reflexivity|]. injection Hcu as <-. exact Hps.
Defined.

(** ** EXACT *)

(** C3. EXACT split. In the share computation, for any amount, id list and
    weight list: with as many weights as ids it fails with ShareSumMismatch
    exactly when [abs(sum of weights - amount) > 0.01], and otherwise yields
    one entry per id whose share is the weight at the same position,
    unchanged; with a different number of weights it fails with
    ShareCountMismatch. A creation that passes the login, amount and
    participant checks ends as the share computation does on the id list
    after creator inclusion. *)
Theorem exact_split_validation :
  (∀ amt ids ws,
     (length ws ≠ length ids →
        splitShares amt EXACT ids ws = Err ShareCountMismatch) ∧
     (length ws = length ids →
        (splitShares amt EXACT ids ws
           = Err (ShareSumMismatch (sum_shares ws) amt)
         ↔ PrimFloat.ltb d_tolerance
             (PrimFloat.abs (PrimFloat.sub (sum_shares ws) amt)) = true) ∧
        (∀ err, splitShares amt EXACT ids ws = Err err →
                err = ShareSumMismatch (sum_shares ws) amt) ∧
        (∀ ps, splitShares amt EXACT ids ws = Ok ps →
               ps = zip_with mkParticipant ids ws ∧
               map userId ps = ids ∧ map share ps = ws))) ∧
  (∀ st now desc amt ids ws cu,
     currentUser st = Some cu →
     PrimFloat.leb amt d_zero = false →
     first_unknown (users st) (includeCreator ids (user_id cu)) = None →
     let ps := includeCreator ids (user_id cu) in
     let result := snd (addExpense st now desc amt EXACT ids ws) in
     (length ws ≠ length ps → result = Err ShareCountMismatch) ∧
     (length ws = length ps →
        (result = Err (ShareSumMismatch (sum_shares ws) amt)
         ↔ PrimFloat.ltb d_tolerance
             (PrimFloat.abs (PrimFloat.sub (sum_shares ws) amt)) = true) ∧
        (∀ e, result = Ok e →
              map userId (participants e) = ps ∧
              map share (participants e) = ws))).
Proof.
  assert (Hstage : ∀ amt ids ws,
     length ws = length ids →
        (splitShares amt EXACT ids ws
           = Err (ShareSumMismatch (sum_shares ws) amt)
         ↔ off_target (sum_shares ws) amt = true) ∧
        (∀ err, splitShares amt EXACT ids ws = Err err →
                err = ShareSumMismatch (sum_shares ws) amt) ∧
        (∀ ps, splitShares amt EXACT ids ws = Ok ps →
               ps = zip_with mkParticipant ids ws ∧
               map userId ps = ids ∧ map share ps = ws)).
  { intros amt ids ws Hlen. rewrite exact_same_count by done.
    destruct (off_target (sum_shares ws) amt).
    - split; [done|]. split; [by intros err [= <-]|].
      intros ps Hps. discriminate Hps.
    - split; [split; intros Heq; discriminate Heq|].
      split; [intros err Herr; discriminate Herr|].
      intros ps [= <-]. split; [done|]. split.
      + by apply map_userId_zip_with.
      + rewrite (map_share_zip_with _ (fun w => w)) by done. apply map_id. }
  split.
  - intros amt ids ws. split; [apply exact_count_mismatch | apply Hstage].
  - intros st now desc amt ids ws cu Hcu Hamt Hunk ps result.
    subst result. rewrite (addExpense_outcome _ _ _ _ _ _ _ cu) by done.
    fold ps. split.
    + intros Hlen. by rewrite exact_count_mismatch.
    + intros Hlen. destruct (Hstage amt ps ws Hlen) as (Hiff & _ & Hok).
      rewrite <- Hiff. clear Hiff.
      destruct (splitShares amt EXACT ps ws) as [l|err] eqn:Hsplit.
      * split; [done|]. intros e [= <-]. simpl.
        by destruct (Hok l eq_refl) as (_ & ? & ?).
      * split; [|done]. split; by intros [= ->].
Qed.

Lemma exact_split_validation_witness :
  snd (addExpense Demo.ann_logged_in "2024-01-02 09:00:00" "taxi" 100 EXACT
                  [1; 2] [60; 30]%float)
    = Err (ShareSumMismatch 90 100) ∧
  splitShares 100 EXACT [1; 2] [60; 40]%float
    = Ok [mkParticipant 1 60; mkParticipant 2 40] ∧
  splitShares 100 EXACT [1; 2] [100]%float = Err ShareCountMismatch.
Proof.
  destruct exact_split_validation as [Hstage Hcall].
  split; [|split].
  - destruct (Hcall Demo.ann_logged_in "2024-01-02 09:00:00" "taxi"
                    100%float [1; 2] [60; 30]%float
                    (mkUser 1 "Ann" "a@b.com" "1234567890" "pw")
                    eq_refl eq_refl eq_refl) as [_ Hsame].
    destruct (Hsame eq_refl) as [Hiff _]. apply Hiff. reflexivity.
  - destruct (Hstage 100%float [1; 2] [60; 40]%float) as [_ Hsame].
    destruct (Hsame eq_refl) as (_ & _ & Hok).
    destruct (splitShares 100 EXACT [1; 2] [60; 40]%float) as [ps|err] eqn:E;
      [|discriminate E].
    destruct (Hok ps eq_refl) as [-> _]. reflexivity.
  - destruct (Hstage 100%float [1; 2] [100]%float) as [Hdiff _].
    apply Hdiff. simpl. lia.
Defined.

(** ** PERCENTAGE *)

(** C4. PERCENTAGE split. In the share computation, for any amount, id list
    and weight list: with as many weights as ids it fails with
    PercentageSumMismatch exactly when [abs(sum of weights - 100) > 0.01],
    and otherwise yields one entry per id whose share is
    [amount * (weight / 100)] for the weight at the same position; with a
    different number of weights it fails with ShareCountMismatch. A creation
    that passes the login, amount and participant checks ends as the share
    computation does on the id list after creator inclusion. *)
Theorem percentage_split_validation :
  (∀ amt ids ws,
     (length ws ≠ length ids →
        splitShares amt PERCENTAGE ids ws = Err ShareCountMismatch) ∧
     (length ws = length ids →
        (splitShares amt PERCENTAGE ids ws
           = Err (PercentageSumMismatch (sum_shares ws))
         ↔ PrimFloat.ltb d_tolerance
             (PrimFloat.abs (PrimFloat.sub (sum_shares ws) d_hundred))
           = true) ∧
        (∀ err, splitShares amt PERCENTAGE ids ws = Err err →
                err = PercentageSumMismatch (sum_shares ws)) ∧
        (∀ ps, splitShares amt PERCENTAGE ids ws = Ok ps →
               map userId ps = ids ∧
               map share ps =
                 map (fun w => PrimFloat.mul amt (PrimFloat.div w d_hundred))
                     ws))) ∧
  (∀ st now desc amt ids ws cu,
     currentUser st = Some cu →
     PrimFloat.leb amt d_zero = false →
     first_unknown (users st) (includeCreator ids (user_id cu)) = None →
     let ps := includeCreator ids (user_id cu) in
     let result := snd (addExpense st now desc amt PERCENTAGE ids ws) in
     (length ws ≠ length ps → result = Err ShareCountMismatch) ∧
     (length ws = length ps →
        (result = Err (PercentageSumMismatch (sum_shares ws))
         ↔ PrimFloat.ltb d_tolerance
             (PrimFloat.abs (PrimFloat.sub (sum_shares ws) d_hundred))
           = true) ∧
        (∀ e, result = Ok e →
              map userId (participants e) = ps ∧
              map share (participants e) =
                map (fun w => PrimFloat.mul amt (PrimFloat.div w d_hundred))
                    ws))).
Proof.
  assert (Hstage : ∀ amt ids ws,
     length ws = length ids →
        (splitShares amt PERCENTAGE ids ws
           = Err (PercentageSumMismatch (sum_shares ws))
         ↔ off_target (sum_shares ws) d_hundred = true) ∧
        (∀ err, splitShares amt PERCENTAGE ids ws = Err err →
                err = PercentageSumMismatch (sum_shares ws)) ∧
        (∀ ps, splitShares amt PERCENTAGE ids ws = Ok ps →
               map userId ps = ids ∧
               map share ps =
                 map (fun w => PrimFloat.mul amt (PrimFloat.div w d_hundred))
                     ws)).
  { intros amt ids ws Hlen. rewrite percentage_same_count by done.
    destruct (off_target (sum_shares ws) d_hundred).
    - split; [done|]. split; [by intros err [= <-]|].
      intros ps Hps. discriminate Hps.
    - split; [split; intros Heq; discriminate Heq|].
      split; [intros err Herr; discriminate Herr|].
      intros ps [= <-]. split.
      + by apply map_userId_zip_with.
      + by apply map_share_zip_with. }
  split.
  - intros amt ids ws.
    split; [apply percentage_count_mismatch | apply Hstage].
  - intros st now desc amt ids ws cu Hcu Hamt Hunk ps result.
    subst result. rewrite (addExpense_outcome _ _ _ _ _ _ _ cu) by done.
    fold ps. split.
    + intros Hlen. by rewrite percentage_count_mismatch.
    + intros Hlen. destruct (Hstage amt ps ws Hlen) as (Hiff & _ & Hok).
      rewrite <- Hiff. clear Hiff.
      destruct (splitShares amt PERCENTAGE ps ws) as [l|err] eqn:Hsplit.
      * split; [done|]. intros e [= <-]. simpl. by apply Hok.
      * split; [|done]. split; by intros [= ->].
Qed.

Lemma percentage_split_validation_witness :
  (∀ e, snd (addExpense Demo.ann_logged_in "2024-01-02 09:00:00" "hotel" 200
                        PERCENTAGE [1; 2] [70; 30]%float) = Ok e →
        map share (participants e) = [140; 60]%float) ∧
  splitShares 200 PERCENTAGE [1; 2] [70; 20]%float
    = Err (PercentageSumMismatch 90) ∧
  splitShares 200 PERCENTAGE [1; 2] [100]%float = Err ShareCountMismatch.
Proof.
  destruct percentage_split_validation as [Hstage Hcall].
  split; [|split].
  - destruct (Hcall Demo.ann_logged_in "2024-01-02 09:00:00" "hotel"
                    200%float [1; 2] [70; 30]%float
                    (mkUser 1 "Ann" "a@b.com" "1234567890" "pw")
                    eq_refl eq_refl eq_refl) as [_ Hsame].
    destruct (Hsame eq_refl) as [_ Hok].
    intros e He. destruct (Hok e He) as [_ Hshares]. exact Hshares.
  - destruct (Hstage 200%float [1; 2] [70; 20]%float) as [_ Hsame].
    destruct (Hsame eq_refl) as [Hiff _]. apply Hiff. reflexivity.
  - destruct (Hstage 200%float [1; 2] [100]%float) as [Hdiff _].
    apply Hdiff. simpl. lia.
Defined.

(** ** Symmetry of the balance *)

(** C5. For every ledger and distinct users X and Y, the entry for Y in the
    balance of X and the entry for X in the balance of Y (a missing entry
    counting as [0.0]) mirror each other: one is the negation of the other,
    or both are a zero. Compared as [double]s they are equal after negation
    ([a == -b]) unless both are NaN; and one map has the entry exactly when
    the other has. *)
Theorem balance_symmetry ledger X Y :
  X ≠ Y →
  let a := entry (computeBalance ledger X) Y in
  let b := entry (computeBalance ledger Y) X in
  mirrored a b ∧
  (PrimFloat.eqb a (PrimFloat.opp b) = true ∨
   (PrimFloat.is_nan a = true ∧ PrimFloat.is_nan b = true)) ∧
  (is_Some (computeBalance ledger X !! Y) ↔
   is_Some (computeBalance ledger Y !! X)).
Proof.
  intros Hne a b.
  assert (Hm : mirrored a b).
  { subst a b. unfold entry. rewrite !lookup_computeBalance.
    unfold spec_balance. rewrite (contributions_flip X Y) by done.
    destruct (deltas_with X (spec_contributions Y ledger)) as [|d ds] eqn:Hds.
    - apply mirrored_zero.
    - change (mirrored (fold_left applyDelta (map flipDelta (d :: ds)) d_zero)
                       (fold_left applyDelta (d :: ds) d_zero)).
      apply mirrored_fold, mirrored_zero. }
  split; [done|]. split; [by apply mirrored_eqb|].
  rewrite !lookup_computeBalance. unfold spec_balance.
  rewrite (contributions_flip X Y) by done.
  destruct (deltas_with X (spec_contributions Y ledger)); simpl.
  - split; intros [? ?]; done.
  - split; eauto.
Qed.

Lemma balance_symmetry_witness :
  let ledger := expenses Demo.after_taxi in
  (1 ≠ 3 ∧
   entry (computeBalance ledger 1) 3 = 30%float ∧
   entry (computeBalance ledger 3) 1 = (-30)%float) ∧
  (1 ≠ 2 ∧
   entry (computeBalance ledger 1) 2 = 0%float ∧
   entry (computeBalance ledger 2) 1 = 0%float ∧
   mirrored (entry (computeBalance ledger 1) 2)
            (entry (computeBalance ledger 2) 1)).
Proof.
  intros ledger.
  assert (H13 : 1 ≠ 3) by lia. assert (H12 : 1 ≠ 2) by lia.
  split.
  - split; [exact H13|]. split; vm_compute; reflexivity.
  - split; [exact H12|]. split; [vm_compute; reflexivity|].
    split; [vm_compute; reflexivity|].
    exact (proj1 (balance_symmetry ledger 1 2 H12)).
Defined.

(** ** Failed creations and the ledger *)

(** C6. Whenever [addExpense] fails, whatever the error (not logged in,
    invalid amount, unknown participant, share count mismatch, share sum
    mismatch or percentage sum mismatch), the sequence of stored expenses
    after the call is the sequence before it: nothing is appended and no
    stored expense is changed. *)
Theorem failed_addExpense_keeps_ledger st now desc amt method ids sh st' err :
  addExpense st now desc amt method ids sh = (st', Err err) →
  expenses st' = expenses st.
Proof.
  intros Hfail. by apply addExpense_Err_inv in Hfail as (_ & Hexp & _).
Qed.

Lemma failed_addExpense_keeps_ledger_witness :
  let call :=
    addExpense Demo.after_lunch "2024-01-02 09:00:00" "taxi" 100 EXACT
               [1; 2] [60; 30]%float in
  call = (fst call, Err (ShareSumMismatch 90 100)) ∧
  expenses (fst call) = expenses Demo.after_lunch.
Proof.
  intros call. split; [reflexivity|].
  apply (failed_addExpense_keeps_ledger
           Demo.after_lunch "2024-01-02 09:00:00" "taxi" 100%float EXACT
           [1; 2] [60; 30]%float (fst call) (ShareSumMismatch 90 100)).
  reflexivity.
Defined.

(** ** Expense identities *)

(** The id counter moves as soon as the expense object is built: a call that
    fails in the share computation has consumed an id. *)
Lemma failed_split_moves_counter st now desc amt method ids sh cu err :
  currentUser st = Some cu →
  PrimFloat.leb amt d_zero = false →
  first_unknown (users st) (includeCreator ids (user_id cu)) = None →
  splitShares amt method (includeCreator ids (user_id cu)) sh = Err err →
  addExpense st now desc amt method ids sh =
    (mkManager (users st) (expenses st) (currentUser st) (nextUserId st)
               (int_succ (nextExpenseId st)), Err err).
Proof.
  intros Hcu Hamt Hunk Hsplit.
  rewrite (addExpense_reaches_split _ _ _ _ _ _ _ cu) by done.
  simpl. by rewrite Hsplit.
Qed.

(** A successful call hands out the counter's value and moves the counter. *)
Lemma addExpense_Ok_id st now desc amt method ids sh st' e :
  addExpense st now desc amt method ids sh = (st', Ok e) →
  expense_id e = nextExpenseId st ∧
  nextExpenseId st' = int_succ (nextExpenseId st).
Proof.
  intros Hok.
  by apply addExpense_Ok_inv in Hok as (cu & ps & _ & _ & _ & _ & -> & ->).
Qed.

(** C7, evaluated where it fails. From the empty ledger, with Ann logged in:
    an EXACT creation whose weights sum to 90 against an amount of 100 is
    rejected and stores nothing, yet it moves the id counter from 1 to 2; the
    first successful creation afterwards is stored with identity 2, not 1. *)
Theorem first_success_after_failed_split :
  let attempt :=
    addExpense Demo.ann_logged_in "2024-01-02 09:00:00" "taxi" 100 EXACT
               [1; 2] [60; 30]%float in
  let retry :=
    addExpense (fst attempt) "2024-01-02 09:05:00" "lunch" 90 EQUAL
               [1; 2; 3] [] in
  expenses Demo.ann_logged_in = [] ∧
  nextExpenseId Demo.ann_logged_in = 1 ∧
  snd attempt = Err (ShareSumMismatch 90 100) ∧
  expenses (fst attempt) = [] ∧
  nextExpenseId (fst attempt) = 2 ∧
  ∃ e, snd retry = Ok e ∧ expenses (fst retry) = [e] ∧ expense_id e = 2.
Proof.
  repeat split. eexists. repeat split.
Qed.

(** ** The creator among the participants *)

(** C8. After a successful [addExpense] the stored expense lists its creator
    among the participants: when the creator id is not in the input list the
    stored ids are the input list with the creator appended at the end, and
    when it is in the input list the stored ids are the input list as given,
    duplicates included, each with an entry of its own. *)
Theorem creator_among_participants st now desc amt method ids sh st' e :
  addExpense st now desc amt method ids sh = (st', Ok e) →
  ∃ cu,
    currentUser st = Some cu ∧
    createdBy e = user_id cu ∧
    expenses st' = expenses st ++ [e] ∧
    In (createdBy e) (map userId (participants e)) ∧
    (¬ In (createdBy e) ids →
       map userId (participants e) = ids ++ [createdBy e]) ∧
    (In (createdBy e) ids → map userId (participants e) = ids) ∧
    length (participants e) = length (includeCreator ids (createdBy e)).
Proof.
  intros Hok.
  apply addExpense_Ok_inv in Hok
    as (cu & ps & Hcu & _ & _ & Hsplit & -> & ->).
  apply splitShares_ids in Hsplit. simpl.
  exists cu. rewrite Hsplit. repeat split; try done.
  - apply includeCreator_In.
  - apply includeCreator_absent.
  - apply includeCreator_present.
  - rewrite <- Hsplit. by rewrite length_map.
Qed.

Lemma creator_among_participants_witness :
  let call :=
    addExpense Demo.ann_logged_in "2024-01-02 09:00:00" "taxi" 50 EQUAL
               [2; 2; 3] [] in
  ∃ e, call = (fst call, Ok e) ∧
       map userId (participants e) = [2; 2; 3; 1].
Proof.
  intros call.
  destruct (creator_among_participants
              Demo.ann_logged_in "2024-01-02 09:00:00" "taxi" 50%float EQUAL
              [2; 2; 3] []
              (fst call)
              (mkExpense 1 "taxi" 50 EQUAL 1 "2024-01-02 09:00:00"
                 [mkParticipant 2 12.5; mkParticipant 2 12.5;
                  mkParticipant 3 12.5; mkParticipant 1 12.5])
              eq_refl)
    as (cu & _ & _ & _ & _ & Habsent & _).
  eexists. split; [reflexivity|].
  apply Habsent. simpl. intros [H|[H|[H|[]]]]; discriminate H.
Defined.

(** ** Registration *)

(** C9 as stated fails where two checks disagree: with an email that has
    neither an at sign nor a dot and a phone of three digits, the phone is
    shorter than 10 characters, yet the call fails with InvalidEmail, not
    with InvalidPhone. Likewise an email with an at sign but no dot is
    rejected with InvalidEmail: lacking one of the two characters is
    enough. *)
Lemma register_short_phone_reported_as_email :
  let result := snd (registerUser initial "Ann" "bad" "123" "pw") in
  (phone_malformed "123" ∧
   result = Err InvalidEmail ∧
   ¬ (result = Err InvalidPhone ↔ phone_malformed "123")) ∧
  (In "@"%char (chars "a@b") ∧
   snd (registerUser initial "Ann" "a@b" "1234567890" "pw")
     = Err InvalidEmail).
Proof.
  assert (Hshort : phone_malformed "123") by (left; simpl; lia).
  split.
  - split; [done|]. split; [reflexivity|].
    intros [_ Hback]. specialize (Hback Hshort). discriminate Hback.
  - split; [simpl; tauto | reflexivity].
Qed.

(** C9, amended. [registerUser] applies its checks in the order email,
    phone, duplicate, and reports the first that fails: it fails with
    InvalidEmail exactly when the email does not hold both an at sign and a
    dot; with InvalidPhone exactly when the email passes and the phone is
    shorter than 10 characters or holds a character that is not a digit;
    with DuplicateEmail exactly when email and phone pass and a registered
    user has exactly this email (compared character by character, so case
    matters); otherwise it succeeds, the new user is appended with the id
    held by the user id counter, and the counter moves to the next int. *)
Theorem register_checks_in_order st name email phone password :
  let call := registerUser st name email phone password in
  (snd call = Err InvalidEmail ↔ email_malformed email) ∧
  (snd call = Err InvalidPhone ↔
     ¬ email_malformed email ∧ phone_malformed phone) ∧
  (snd call = Err DuplicateEmail ↔
     ¬ email_malformed email ∧ ¬ phone_malformed phone ∧
     email_registered st email) ∧
  ((∃ u, snd call = Ok u) ↔
     ¬ email_malformed email ∧ ¬ phone_malformed phone ∧
     ¬ email_registered st email) ∧
  (∀ u, snd call = Ok u →
     u = mkUser (nextUserId st) name email phone password ∧
     users (fst call) = users st ++ [u] ∧
     nextUserId (fst call) = int_succ (nextUserId st) ∧
     (0 < nextUserId st < INT_MAX →
        nextUserId (fst call) = nextUserId st + 1)) ∧
  (∀ err, snd call = Err err → fst call = st).
Proof.
  intros call. subst call. unfold registerUser.
  rewrite <- isValidEmail_false, <- isValidPhone_false, <- email_taken_spec.
  destruct (Utils.isValidEmail email); simpl.
  2:{ intuition (try discriminate; try congruence); by_outcome. }
  destruct (Utils.isValidPhone phone); simpl.
  2:{ intuition (try discriminate; try congruence); by_outcome. }
  destruct (email_taken (users st) email); simpl.
  { intuition (try discriminate; try congruence); by_outcome. }
  intuition (try discriminate; try congruence; eauto); by_outcome.
  apply int_succ_in_range. unfold INT_MAX in *. lia.
Qed.

(** Registering "a@b.com" twice succeeds once, with id 1, then fails with
    DuplicateEmail. *)
Lemma register_checks_in_order_witness :
  snd (registerUser initial "Ann" "a@b.com" "1234567890" "pw")
    = Ok (mkUser 1 "Ann" "a@b.com" "1234567890" "pw") ∧
  snd (registerUser Demo.one_user "Ann" "a@b.com" "1234567890" "pw")
    = Err DuplicateEmail.
Proof.
  split; [reflexivity|].
  destruct (register_checks_in_order
              Demo.one_user "Ann" "a@b.com" "1234567890" "pw")
    as (_ & _ & Hdup & _).
  apply Hdup. split; [|split].
  - intros Hbad. apply Hbad. simpl. tauto.
  - intros [Hlen|(c & Hc & Hnd)]; [simpl in Hlen; lia|].
    apply Hnd. simpl in Hc |- *.
    repeat (destruct Hc as [<-|Hc]; [tauto|]). destruct Hc.
  - eexists. split; [left; reflexivity | reflexivity].
Defined.

(** ** The divisor of the EQUAL split *)

(** C10. In a call that reaches the EQUAL share computation (a user is logged
    in, the amount passed its check, every participant is known) the
    participant list divided by holds at least one id, because the creator
    was appended when absent: the count the amount is divided by is at least
    1, its conversion to [double] is not a zero (a vector holds fewer than
    [2^63] elements), and it is exactly 1 when the caller supplied no
    participant at all. The call then succeeds with every share equal to the
    amount divided by that count. *)
Theorem equal_split_count_positive st now desc amt ids sh cu :
  currentUser st = Some cu →
  PrimFloat.leb amt d_zero = false →
  first_unknown (users st) (includeCreator ids (user_id cu)) = None →
  let ps := includeCreator ids (user_id cu) in
  (1 ≤ length ps)%nat ∧
  (Z.of_nat (length ps) < 2 ^ 63 →
     PrimFloat.eqb (size_to_double (length ps)) d_zero = false) ∧
  (ids = [] → ps = [user_id cu] ∧ size_to_double (length ps) = 1%float) ∧
  ∃ e, snd (addExpense st now desc amt EQUAL ids sh) = Ok e ∧
       participants e =
         map (fun id =>
                mkParticipant id
                  (PrimFloat.div amt (size_to_double (length ps)))) ps.
Proof.
  intros Hcu Hamt Hunk ps.
  pose proof (includeCreator_length ids (user_id cu)) as Hlen.
  split; [done|]. split; [|split].
  - intros Hlt. apply size_to_double_nonzero; [|done]. fold ps in Hlen. lia.
  - intros ->. done.
  - rewrite (addExpense_outcome _ _ _ _ _ _ _ cu) by done.
    simpl. eauto.
Qed.

Lemma equal_split_count_positive_witness :
  currentUser Demo.ann_logged_in
    = Some (mkUser 1 "Ann" "a@b.com" "1234567890" "pw") ∧
  ∃ e, snd (addExpense Demo.ann_logged_in "2024-01-03 08:00:00" "coffee" 50
                       EQUAL [] []) = Ok e ∧
       participants e = [mkParticipant 1 50].
Proof.
  split; [reflexivity|].
  destruct (equal_split_count_positive
              Demo.ann_logged_in "2024-01-03 08:00:00" "coffee" 50%float [] []
              (mkUser 1 "Ann" "a@b.com" "1234567890" "pw")
              eq_refl eq_refl eq_refl) as (_ & _ & _ & e & He & Hps).
  exists e. split; [exact He | exact Hps].
Defined.

(** * Beyond the claims: text, persistence, sessions and views *)

(** * Beyond the claims: text, persistence, sessions and views *)

(** ** Facts about [split] and [join] *)

Section TextFacts.

Lemma append_cons c s t : String c s +:+ t = String c (s +:+ t).
Proof. reflexivity. Qed.

Lemma append_nil_l s : EmptyString +:+ s = s.
Proof. reflexivity. Qed.

Lemma append_nil_r s : s +:+ EmptyString = s.
Proof.
  induction s as [|c s IH]; [done|]. by rewrite append_cons, IH.
Qed.

Lemma append_assoc a b c : (a +:+ b) +:+ c = a +:+ (b +:+ c).
Proof.
  induction a as [|x a IH]; [done|]. by rewrite !append_cons, IH.
Qed.

Lemma contains_append d a b :
  Utils.contains d (a +:+ b) = Utils.contains d a || Utils.contains d b.
Proof.
  induction a as [|x a IH]; [done|].
  rewrite append_cons. simpl. by destruct (Ascii.eqb x d).
Qed.

(** A field without the delimiter, followed by the delimiter, is the next
    token. *)
Lemma split_go_field d f rest : ∀ token,
  Utils.contains d f = false →
  Text.split_go d (f +:+ String d rest) token =
    (token +:+ f) :: Text.split_go d rest EmptyString.
Proof.
  induction f as [|c f IH]; intros token Hf.
  - rewrite append_nil_l, append_nil_r. simpl. by rewrite Ascii.eqb_refl.
  - rewrite append_cons. simpl in *.
    destruct (Ascii.eqb c d); [done|].
    rewrite IH by done. by rewrite append_assoc.
Qed.

(** A field without the delimiter at the end of the text is a token unless
    it is empty. *)
Lemma split_go_last d f : ∀ token,
  Utils.contains d f = false →
  Text.split_go d f token =
    match token +:+ f with
    | EmptyString => []
    | t => [t]
    end.
Proof.
  induction f as [|c f IH]; intros token Hf; simpl in *.
  - rewrite append_nil_r. by destruct token.
  - destruct (Ascii.eqb c d); [done|].
    rewrite IH by done. by rewrite append_assoc.
Qed.

Lemma split_join_go d fields :
  Forall (fun f => Utils.contains d f = false) fields →
  Text.split (Text.join d fields) d =
    match last fields with
    | Some EmptyString => removelast fields
    | _ => fields
    end.
Proof.
  unfold Text.split.
  induction fields as [|f fields IH]; intros Hall; [done|].
  apply Forall_cons in Hall as [Hf Hall].
  destruct fields as [|g rest].
  - simpl. rewrite split_go_last by done. rewrite append_nil_l.
    by destruct f.
  - change (Text.join d (f :: g :: rest))
      with (f +:+ String d (Text.join d (g :: rest))).
    rewrite split_go_field by done. rewrite append_nil_l, (IH Hall).
    change (last (f :: g :: rest)) with (last (g :: rest)).
    by destruct (last (g :: rest)) as [[|c t]|] eqn:Hlast.
Qed.

Lemma concat_lines lines :
  String.concat EmptyString
    (map (fun l => l +:+ String newline EmptyString) lines)
  = fold_right (fun l acc => l +:+ String newline acc) EmptyString lines.
Proof.
  induction lines as [|l [|l' ls] IH]; [done| |].
  - done.
  - change (String.concat EmptyString
              (map (fun l => l +:+ String newline EmptyString)
                   (l :: l' :: ls)))
      with ((l +:+ String newline EmptyString) +:+
            (EmptyString +:+
             String.concat EmptyString
               (map (fun l => l +:+ String newline EmptyString)
                    (l' :: ls)))).
    rewrite IH, append_nil_l, append_assoc. done.
Qed.

(** Lines written one after the other, each closed by a newline, are read
    back as they were. *)
Lemma split_lines lines :
  Forall (fun l => Utils.contains newline l = false) lines →
  Text.split
    (String.concat EmptyString
       (map (fun l => l +:+ String newline EmptyString) lines)) newline
  = lines.
Proof.
  unfold Text.split. intros Hall. rewrite concat_lines.
  induction Hall as [|l ls Hl Hls IH]; [done|].
  simpl. rewrite split_go_field by done. by rewrite append_nil_l, IH.
Qed.

End TextFacts.

(** X1. [Utils::split] undoes the joining of fields with a delimiter that
    occurs in none of them, except that an empty last field is lost: when
    the last field is not empty the fields come back as they were, and when
    it is empty all fields but that one come back. *)
Theorem split_join d fields :
  Forall (fun f => Utils.contains d f = false) fields →
  (last fields ≠ Some EmptyString →
     Text.split (Text.join d fields) d = fields) ∧
  (∀ init, fields = init ++ [EmptyString] →
     Text.split (Text.join d fields) d = init).
Proof.
  intros Hall. rewrite split_join_go by done. split.
  - intros Hlast. by destruct (last fields) as [[|c t]|].
  - intros init ->. rewrite last_snoc. apply removelast_last.
Qed.

Lemma split_join_witness :
  Text.split (Text.join "|" ["1"; "Ann"; ""; "pw"]) "|"
    = ["1"; "Ann"; ""; "pw"] ∧
  Text.split (Text.join "|" ["1"; "Ann"; ""]) "|" = ["1"; "Ann"].
Proof.
  split.
  - assert (Hall : Forall (fun f => Utils.contains "|" f = false)
                          ["1"; "Ann"; ""; "pw"]) by repeat constructor.
    destruct (split_join "|" ["1"; "Ann"; ""; "pw"] Hall) as [Hkeep _].
    apply Hkeep. intros Hlast. discriminate Hlast.
  - assert (Hall : Forall (fun f => Utils.contains "|" f = false)
                          ["1"; "Ann"; ""]) by repeat constructor.
    destruct (split_join "|" ["1"; "Ann"; ""] Hall) as [_ Hdrop].
    by apply (Hdrop ["1"; "Ann"]).
Defined.

(** ** Facts about [to_string] and [stoi] *)

Section NumberFacts.

Lemma digit_prefix_string_of_uint u :
  Text.digit_prefix (NilEmpty.string_of_uint u) = u.
Proof. induction u; simpl; by f_equal. Qed.

Lemma skip_space_digits u :
  Text.skip_space (NilEmpty.string_of_uint u) = NilEmpty.string_of_uint u.
Proof. by destruct u. Qed.

Lemma in_int_range v :
  - 2 ^ 31 ≤ v ≤ INT_MAX → (- 2 ^ 31 <=? v) && (v <=? INT_MAX) = true.
Proof.
  intros Hv. apply andb_true_iff. split; apply Z.leb_le; lia.
Qed.

Lemma stoi_to_string z :
  - 2 ^ 31 ≤ z ≤ INT_MAX → Text.stoi (Text.to_string z) = Some z.
Proof.
  intros Hz. unfold Text.to_string. destruct z as [|p|p]; [done| |].
  - simpl Z.to_int. unfold NilZero.string_of_int, NilZero.string_of_uint.
    pose proof (Unsigned.to_uint_nonnil p) as Hnn.
    assert (Hv : Z.of_uint (Pos.to_uint p) = Z.pos p).
    { unfold Z.of_uint. by rewrite Unsigned.of_to. }
    assert (Hs : match Pos.to_uint p with
                 | Decimal.Nil => "0"%string
                 | _ => NilEmpty.string_of_uint (Pos.to_uint p)
                 end = NilEmpty.string_of_uint (Pos.to_uint p)).
    { by destruct (Pos.to_uint p). }
    rewrite Hs. unfold Text.stoi. rewrite skip_space_digits.
    assert (Hsign :
      match NilEmpty.string_of_uint (Pos.to_uint p) with
      | String "-" r => (true, r)
      | String "+" r => (false, r)
      | _ => (false, NilEmpty.string_of_uint (Pos.to_uint p))
      end = (false, NilEmpty.string_of_uint (Pos.to_uint p))).
    { by destruct (Pos.to_uint p). }
    rewrite Hsign, digit_prefix_string_of_uint. cbv zeta.
    rewrite Hv, in_int_range by done.
    by destruct (Pos.to_uint p).
  - simpl Z.to_int. unfold NilZero.string_of_int, NilZero.string_of_uint.
    pose proof (Unsigned.to_uint_nonnil p) as Hnn.
    assert (Hv : Z.of_uint (Pos.to_uint p) = Z.pos p).
    { unfold Z.of_uint. by rewrite Unsigned.of_to. }
    assert (Hs : match Pos.to_uint p with
                 | Decimal.Nil => "0"%string
                 | _ => NilEmpty.string_of_uint (Pos.to_uint p)
                 end = NilEmpty.string_of_uint (Pos.to_uint p)).
    { by destruct (Pos.to_uint p). }
    rewrite Hs. unfold Text.stoi.
    change (Text.skip_space (String "-" ?s)) with (String "-" s).
    cbv iota beta. rewrite digit_prefix_string_of_uint. cbv zeta.
    rewrite Hv. change (- Z.pos p) with (Z.neg p).
    rewrite in_int_range by done.
    by destruct (Pos.to_uint p).
Qed.

(** The text of a number holds digits and at most a minus sign. *)
Lemma contains_string_of_uint c u :
  Utils.isdigit c = false →
  Utils.contains c (NilEmpty.string_of_uint u) = false.
Proof.
  intros Hc.
  induction u; cbn [NilEmpty.string_of_uint Utils.contains]; try done;
    match goal with
    | |- context [Ascii.eqb ?a c] =>
        destruct (Ascii.eqb_spec a c) as [<-|_]; [discriminate Hc | done]
    end.
Qed.

Lemma contains_to_string c z :
  Utils.isdigit c = false → c ≠ "-"%char →
  Utils.contains c (Text.to_string z) = false.
Proof.
  intros Hc Hminus. unfold Text.to_string.
  assert (Hu : ∀ u, Utils.contains c (NilZero.string_of_uint u) = false).
  { intros u. unfold NilZero.string_of_uint.
    destruct u; try by apply contains_string_of_uint.
    cbn [Utils.contains].
    by destruct (Ascii.eqb_spec "0" c) as [<-|_]. }
  destruct (Z.to_int z) as [u|u];
    cbn [NilZero.string_of_int Utils.contains]; [apply Hu|].
  destruct (Ascii.eqb_spec "-" c) as [<-|_]; [done | apply Hu].
Qed.

Lemma to_string_nonempty z : Text.to_string z ≠ EmptyString.
Proof.
  unfold Text.to_string.
  destruct z as [|p|p]; simpl; try done.
  pose proof (Unsigned.to_uint_nonnil p).
  unfold NilZero.string_of_uint. by destruct (Pos.to_uint p).
Qed.

End NumberFacts.

(** ** Facts about the users file *)

Section UserFileFacts.

Lemma User_serialize_nested u :
  User_serialize u =
    Text.to_string (user_id u) +:+
    String "|" (user_name u +:+
    String "|" (user_email u +:+
    String "|" (user_phone u +:+
    String "|" (user_password u)))).
Proof. reflexivity. Qed.

(** The tokens of a record: the first four fields, then the tokens of the
    password. *)
Lemma User_split u :
  Utils.contains "|" (user_name u) = false →
  Utils.contains "|" (user_email u) = false →
  Utils.contains "|" (user_phone u) = false →
  Text.split (User_serialize u) "|" =
    Text.to_string (user_id u) :: user_name u :: user_email u ::
    user_phone u :: Text.split (user_password u) "|".
Proof.
  intros Hn He Hp. rewrite User_serialize_nested. unfold Text.split.
  rewrite split_go_field by (by apply contains_to_string).
  rewrite split_go_field by done.
  rewrite split_go_field by done.
  rewrite split_go_field by done.
  by rewrite !append_nil_l.
Qed.

Lemma split_single d f :
  Utils.contains d f = false → f ≠ EmptyString → Text.split f d = [f].
Proof.
  intros Hf Hne. unfold Text.split. rewrite split_go_last by done.
  rewrite append_nil_l. by destruct f.
Qed.

Lemma User_deserialize_serialize u :
  - 2 ^ 31 ≤ user_id u ≤ INT_MAX →
  Utils.contains "|" (user_name u) = false →
  Utils.contains "|" (user_email u) = false →
  Utils.contains "|" (user_phone u) = false →
  Utils.contains "|" (user_password u) = false →
  user_password u ≠ EmptyString →
  User_deserialize (User_serialize u) = Some u.
Proof.
  intros Hid Hn He Hp Hw Hne. unfold User_deserialize.
  rewrite User_split, split_single, stoi_to_string by done.
  by destruct u.
Qed.

End UserFileFacts.

(** X2. A user record written by [User::serialize] is read back unchanged by
    [User::deserialize] when its id is an [int], no field holds the
    delimiter ["|"] and the password is not empty. *)
Theorem user_record_roundtrip u :
  - 2 ^ 31 ≤ user_id u ≤ INT_MAX →
  Utils.contains "|" (user_name u) = false →
  Utils.contains "|" (user_email u) = false →
  Utils.contains "|" (user_phone u) = false →
  Utils.contains "|" (user_password u) = false →
  user_password u ≠ EmptyString →
  User_deserialize (User_serialize u) = Some u ∧
  Text.split (User_serialize u) "|" =
    [Text.to_string (user_id u); user_name u; user_email u; user_phone u;
     user_password u].
Proof.
  intros Hid Hn He Hp Hw Hne. split.
  - by apply User_deserialize_serialize.
  - rewrite User_split by done. by rewrite split_single.
Qed.

Lemma user_record_roundtrip_witness :
  User_deserialize
    (User_serialize (mkUser 12 "Ann Lee" "a@b.com" "1234567890" "pw"))
  = Some (mkUser 12 "Ann Lee" "a@b.com" "1234567890" "pw").
Proof.
  apply (user_record_roundtrip
           (mkUser 12 "Ann Lee" "a@b.com" "1234567890" "pw")); simpl;
    try reflexivity; try discriminate.
  unfold INT_MAX. lia.
Defined.

(** X3. A user whose password is empty does not survive the file: the line
    written for it has only four fields, and [User::deserialize] answers the
    default record, with id 0, name, email and phone lost. *)
Theorem user_record_empty_password u :
  Utils.contains "|" (user_name u) = false →
  Utils.contains "|" (user_email u) = false →
  Utils.contains "|" (user_phone u) = false →
  user_password u = EmptyString →
  User_deserialize (User_serialize u) = Some User_default ∧
  length (Text.split (User_serialize u) "|") = 4%nat.
Proof.
  intros Hn He Hp Hw. unfold User_deserialize.
  rewrite User_split by done. by rewrite Hw.
Qed.

Lemma user_record_empty_password_witness :
  User_deserialize
    (User_serialize (mkUser 1 "Ann" "a@b.com" "1234567890" ""))
  = Some User_default.
Proof.
  apply (user_record_empty_password
           (mkUser 1 "Ann" "a@b.com" "1234567890" "")); reflexivity.
Defined.

(** X4. A delimiter inside the password cuts it: the record read back
    carries only the part of the password before its first ["|"], the other
    fields being unchanged. *)
Theorem user_record_password_cut u before after :
  - 2 ^ 31 ≤ user_id u ≤ INT_MAX →
  Utils.contains "|" (user_name u) = false →
  Utils.contains "|" (user_email u) = false →
  Utils.contains "|" (user_phone u) = false →
  Utils.contains "|" before = false →
  user_password u = before +:+ String "|" after →
  User_deserialize (User_serialize u) =
    Some (mkUser (user_id u) (user_name u) (user_email u) (user_phone u)
                 before).
Proof.
  intros Hid Hn He Hp Hb Hw. unfold User_deserialize.
  rewrite User_split by done. rewrite Hw. unfold Text.split at 1.
  rewrite split_go_field by done. rewrite append_nil_l.
  by rewrite stoi_to_string.
Qed.

Lemma user_record_password_cut_witness :
  User_deserialize
    (User_serialize (mkUser 1 "Ann" "a@b.com" "1234567890" "se|cret"))
  = Some (mkUser 1 "Ann" "a@b.com" "1234567890" "se").
Proof.
  apply (user_record_password_cut
           (mkUser 1 "Ann" "a@b.com" "1234567890" "se|cret") "se" "cret");
    simpl; try reflexivity.
  unfold INT_MAX. lia.
Defined.

Section UsersFileFacts.

Lemma User_serialize_cons u : ∃ c s, User_serialize u = String c s.
Proof.
  rewrite User_serialize_nested.
  pose proof (to_string_nonempty (user_id u)) as Hne.
  destruct (Text.to_string (user_id u)) as [|c s]; [done|].
  rewrite append_cons. eauto.
Qed.

Lemma User_serialize_one_line u :
  writable u → Utils.contains newline (User_serialize u) = false.
Proof.
  intros ((_ & Hn) & (_ & He) & (_ & Hp) & (_ & Hw) & _).
  rewrite User_serialize_nested.
  rewrite contains_append, contains_to_string by done.
  cbn [Utils.contains orb]. change (Ascii.eqb "|" newline) with false.
  cbv iota. rewrite contains_append, Hn.
  cbn [Utils.contains orb]. change (Ascii.eqb "|" newline) with false.
  cbv iota. rewrite contains_append, He.
  cbn [Utils.contains orb]. change (Ascii.eqb "|" newline) with false.
  cbv iota. rewrite contains_append, Hp.
  cbn [Utils.contains orb]. change (Ascii.eqb "|" newline) with false.
  cbv iota. done.
Qed.

Lemma loadUsers_line_serialize acc next u :
  writable u → 0 < user_id u ≤ INT_MAX →
  loadUsers_line (acc, next) (User_serialize u) =
    Some (acc ++ [u], bump next u).
Proof.
  intros ((Hn & _) & (He & _) & (Hp & _) & (Hw & _) & Hne) Hid.
  destruct (User_serialize_cons u) as (c & s & Hline).
  unfold loadUsers_line. rewrite Hline, <- Hline.
  rewrite User_deserialize_serialize by (done || lia).
  replace (0 <? user_id u) with true by (symmetry; apply Z.ltb_lt; lia).
  done.
Qed.

Lemma loadUsers_lines us : ∀ acc next,
  Forall writable us →
  Forall (fun u => 0 < user_id u ≤ INT_MAX) us →
  fold_left (fun acc line => acc ≫= fun a => loadUsers_line a line)
            (map User_serialize us) (Some (acc, next))
  = Some (acc ++ us, fold_left bump us next).
Proof.
  induction us as [|u us IH]; intros acc next Hw Hid; simpl.
  - by rewrite app_nil_r.
  - apply Forall_cons in Hw as [Hu Hw].
    apply Forall_cons in Hid as [Hidu Hid].
    rewrite loadUsers_line_serialize by done.
    rewrite IH by done. by rewrite <- app_assoc.
Qed.

Lemma bump_sequence us : ∀ m k,
  map user_id us = seqZ m k → 0 ≤ k → m + k ≤ INT_MAX → - 2 ^ 31 ≤ m →
  fold_left bump us m = m + k.
Proof.
  induction us as [|u us IH]; intros m k Hids Hk Hmax Hm.
  - destruct (decide (0 < k)) as [Hpos|Hnpos].
    + rewrite seqZ_cons in Hids by done. discriminate Hids.
    + simpl. lia.
  - destruct (decide (0 < k)) as [Hpos|Hnpos].
    2:{ rewrite seqZ_nil in Hids by lia. discriminate Hids. }
    rewrite seqZ_cons in Hids by done. simpl in Hids.
    injection Hids as Hu Hrest. simpl. unfold bump at 2. rewrite Hu.
    rewrite Z.leb_refl.
    replace (int_wrap (m + 1)) with (Z.succ m).
    + rewrite (IH (Z.succ m) (Z.pred k)) by (done || lia). lia.
    + unfold int_wrap, INT_MAX in *. rewrite Z.mod_small by lia. lia.
Qed.

End UsersFileFacts.

(** ** What every sequence of calls preserves *)

Section SessionFacts.

Lemma int_succ_small x : 1 ≤ x < INT_MAX → int_succ x = x + 1.
Proof.
  unfold int_succ, int_wrap, INT_MAX. intros Hx.
  rewrite Z.mod_small by lia. lia.
Qed.

Lemma user_known_In us id :
  user_known us id = true ↔ In id (map user_id us).
Proof.
  unfold user_known. rewrite existsb_exists, in_map_iff.
  split; intros (u & H1 & H2); exists u.
  - split; [by apply Z.eqb_eq|done].
  - split; [done|by apply Z.eqb_eq].
Qed.

Lemma first_unknown_None us ids :
  first_unknown us ids = None → Forall (fun id => In id (map user_id us)) ids.
Proof.
  unfold first_unknown. intros Hnone. apply List.Forall_forall.
  intros id Hid. apply user_known_In.
  pose proof (find_none _ _ Hnone id Hid) as Hk. simpl in Hk.
  by destruct (user_known us id).
Qed.

Lemma stored_well_more_users us u e :
  stored_well us e → stored_well (us ++ [u]) e.
Proof.
  intros (Hc & Hps & Hin & Hamt & Hsum).
  repeat split; try done.
  - rewrite map_app. apply in_or_app. by left.
  - eapply Forall_impl; [exact Hps|]. intros p Hp. simpl in *.
    rewrite map_app. apply in_or_app. by left.
Qed.

Lemma StronglySorted_snoc (l : list Z) y :
  StronglySorted Z.lt l → Forall (fun x => x < y) l →
  StronglySorted Z.lt (l ++ [y]).
Proof.
  induction 1 as [|x l Hs IH Hx]; intros Hall; simpl.
  - repeat constructor.
  - apply Forall_cons in Hall as [Hxy Hall]. constructor; [by apply IH|].
    apply Forall_app. split; [done|]. by repeat constructor.
Qed.

(** A successful split in EXACT mode stores the weights it has checked. *)
Lemma splitShares_exact_sum amt ids sh ps :
  splitShares amt EXACT ids sh = Ok ps →
  off_target (sum_shares (map share ps)) amt = false.
Proof.
  simpl. destruct (Nat.eqb_spec (length sh) (length ids)) as [Hlen|];
    [|done].
  simpl. destruct (off_target (sum_shares sh) amt) eqn:Hoff; [done|].
  intros [= <-].
  rewrite (map_share_zip_with _ (fun w => w)) by done.
  by rewrite map_id.
Qed.

Lemma addExpense_stored_well st now desc amt method ids sh st' e :
  addExpense st now desc amt method ids sh = (st', Ok e) →
  stored_well (users st) e.
Proof.
  intros Hok.
  apply addExpense_Ok_inv in Hok
    as (cu & ps & Hcu & Hamt & Hunk & Hsplit & -> & _).
  pose proof (splitShares_ids _ _ _ _ _ Hsplit) as Hids.
  apply first_unknown_None in Hunk.
  pose proof (includeCreator_In ids (user_id cu)) as Hin.
  unfold stored_well. simpl. split; [|split; [|split; [|split]]].
  - rewrite List.Forall_forall in Hunk. by apply Hunk.
  - rewrite <- Hids in Hunk. by rewrite Forall_map in Hunk.
  - by rewrite Hids.
  - done.
  - intros ->. by eapply splitShares_exact_sum.
Qed.

Lemma consistent_mono n n' st :
  n ≤ n' → consistent n st → consistent n' st.
Proof.
  intros Hle (Hu & He & Hrest). split; [lia|]. split; [lia|done].
Qed.

Lemma consistent_initial : consistent 0 initial.
Proof.
  unfold consistent, initial. simpl.
  repeat split; try done; try lia; try constructor.
Qed.

Lemma consistent_register n st name email phone password :
  consistent n st → n < INT_MAX - 1 →
  consistent (n + 1) (fst (registerUser st name email phone password)).
Proof.
  intros Hc Hn. unfold registerUser.
  destruct (negb (Utils.isValidEmail email));
    [by apply (consistent_mono n); [lia|]|].
  destruct (negb (Utils.isValidPhone phone));
    [by apply (consistent_mono n); [lia|]|].
  destruct (email_taken (users st) email) eqn:Htaken;
    [by apply (consistent_mono n); [lia|]|].
  destruct Hc as (Hu & He & Hids & Hemails & Hcur & Hwell & Hsort & Hbound).
  unfold consistent. simpl. rewrite int_succ_small by lia.
  split; [lia|]. split; [lia|]. split; [|split; [|split; [|split]]].
  - rewrite map_app, Hids. simpl.
    replace (nextUserId st + 1 - 1) with (nextUserId st - 1 + 1) by lia.
    rewrite seqZ_app by lia.
    replace (1 + (nextUserId st - 1)) with (nextUserId st) by lia.
    done.
  - rewrite map_app. simpl. apply NoDup_app. split; [done|]. split.
    + intros x Hx Hnew. apply list_elem_of_singleton in Hnew as ->.
      apply list_elem_of_In, in_map_iff in Hx as (u & Heq & Hin).
      assert (email_taken (users st) email = true); [|congruence].
      apply existsb_exists. exists u. split; [done|].
      by apply String.eqb_eq.
    + apply NoDup_singleton.
  - intros u Hsome. apply in_or_app. left. by apply Hcur.
  - eapply Forall_impl; [exact Hwell|]. intros e.
    apply stored_well_more_users.
  - done.
Qed.

Lemma consistent_login n st email password :
  consistent n st → consistent n (fst (login st email password)).
Proof.
  intros Hc. unfold login.
  destruct (List.find _ (users st)) as [u|] eqn:Hfind; [|done].
  destruct Hc as (Hu & He & Hids & Hemails & Hcur & Hrest).
  unfold consistent. simpl.
  split; [done|]. split; [done|]. split; [done|]. split; [done|].
  split; [|done].
  intros u' [= <-]. by apply find_some in Hfind as [Hin _].
Qed.

Lemma consistent_logout n st : consistent n st → consistent n (logout st).
Proof.
  intros (Hu & He & Hids & Hemails & Hcur & Hrest).
  unfold consistent. simpl.
  split; [done|]. split; [done|]. split; [done|]. split; [done|].
  split; [done|]. done.
Qed.

Lemma consistent_addExpense n st now desc amt method ids sh :
  consistent n st → n < INT_MAX - 1 →
  consistent (n + 1) (fst (addExpense st now desc amt method ids sh)).
Proof.
  intros Hc Hn.
  destruct (addExpense st now desc amt method ids sh) as [st' [e|err]]
    eqn:Hcall; simpl.
  - pose proof (addExpense_stored_well _ _ _ _ _ _ _ _ _ Hcall) as Hwell'.
    apply addExpense_Ok_inv in Hcall
      as (cu & ps & Hcu & _ & _ & _ & He & ->).
    destruct Hc as (Hu & Hx & Hids & Hemails & Hcur & Hwell & Hsort & Hbound).
    assert (Hid : expense_id e = nextExpenseId st) by by rewrite He.
    unfold consistent. simpl. rewrite int_succ_small by lia.
    split; [lia|]. split; [lia|]. repeat split; try done.
    + apply Forall_app. split; [done|]. by constructor.
    + rewrite map_app. simpl. apply StronglySorted_snoc; [done|].
      rewrite Forall_map. eapply Forall_impl; [exact Hbound|].
      intros e' He'. simpl in *. lia.
    + apply Forall_app. split.
      * eapply Forall_impl; [exact Hbound|]. intros e' He'. simpl in *. lia.
      * constructor; [lia|constructor].
  - apply addExpense_Err_inv in Hcall
      as (Husers & Hexp & Hcur' & Hnu & Hnext).
    destruct Hc as (Hu & Hx & Hids & Hemails & Hcur & Hwell & Hsort & Hbound).
    unfold consistent. rewrite Husers, Hexp, Hcur', Hnu.
    assert (Hnx : nextExpenseId st ≤ nextExpenseId st' ≤ nextExpenseId st + 1).
    { destruct Hnext as [->| ->]; [lia|]. rewrite int_succ_small; lia. }
    split; [lia|]. split; [lia|]. repeat split; try done.
    eapply Forall_impl; [exact Hbound|]. intros e' He'. simpl in *. lia.
Qed.

Lemma consistent_apply_op n st op :
  consistent n st → n < INT_MAX - 1 → consistent (n + 1) (apply_op st op).
Proof.
  intros Hc Hn. destruct op; simpl.
  - by apply consistent_register.
  - apply (consistent_mono n); [lia|]. by apply consistent_login.
  - apply (consistent_mono n); [lia|]. by apply consistent_logout.
  - by apply consistent_addExpense.
Qed.

Lemma consistent_run_from n st ops :
  consistent n st → n + Z.of_nat (length ops) < INT_MAX →
  consistent (n + Z.of_nat (length ops)) (run ops st).
Proof.
  revert n st. induction ops as [|op ops IH]; intros n st Hc Hlen.
  - simpl. by rewrite Z.add_0_r.
  - simpl in *.
    replace (n + Z.of_nat (S (length ops)))
      with ((n + 1) + Z.of_nat (length ops)) by lia.
    apply IH; [|lia]. apply consistent_apply_op; [done|lia].
Qed.

Lemma consistent_run ops :
  Z.of_nat (length ops) < INT_MAX →
  consistent (Z.of_nat (length ops)) (run ops initial).
Proof.
  intros Hlen.
  apply (consistent_run_from 0 initial ops consistent_initial). lia.
Qed.

End SessionFacts.









Lemma users_file_reload n st :
  consistent n st → n < INT_MAX →
  Forall writable (users st) →
  loadUsers (saveUsers (users st)) = Some (users st, nextUserId st).
Proof.
  intros (Hu & _ & Hids & _) Hn Hw.
  unfold loadUsers, saveUsers.
  rewrite <- (map_map User_serialize
                (fun l => l +:+ String newline EmptyString)).
  rewrite split_lines.
  2:{ rewrite Forall_map. eapply Forall_impl; [exact Hw|].
      intros u. apply User_serialize_one_line. }
  assert (Hrange : Forall (fun u => 0 < user_id u ≤ INT_MAX) (users st)).
  { apply List.Forall_forall. intros u Hin.
    assert (Hid : user_id u ∈ seqZ 1 (nextUserId st - 1)).
    { rewrite <- Hids. apply list_elem_of_In, in_map. done. }
    apply elem_of_seqZ in Hid. lia. }
  rewrite loadUsers_lines by done. simpl.
  rewrite (bump_sequence _ 1 (nextUserId st - 1)) by (done || lia).
  do 2 f_equal. lia.
Qed.

(** X9. Saving and reloading the users file gives back the registry: after
    any sequence of calls on a fresh manager, when every user's fields are
    free of ["|"] and of newlines and every password is non-empty, the users
    part of [loadData] applied to what [saveData] wrote yields the same
    users in the same order and the same id counter, one line of the file
    per user. *)
Theorem users_file_roundtrip ops :
  Z.of_nat (length ops) < INT_MAX →
  let st := run ops initial in
  Forall writable (users st) →
  loadUsers (saveUsers (users st)) = Some (users st, nextUserId st) ∧
  Text.split (saveUsers (users st)) newline
    = map User_serialize (users st).
Proof.
  intros Hlen st Hw. split.
  - by apply (users_file_reload (Z.of_nat (length ops)));
      [apply consistent_run| |].
  - unfold saveUsers.
    rewrite <- (map_map User_serialize
                  (fun l => l +:+ String newline EmptyString)).
    apply split_lines. rewrite Forall_map.
    eapply Forall_impl; [exact Hw|]. intros u.
    apply User_serialize_one_line.
Qed.

Lemma users_file_roundtrip_witness :
  loadUsers (saveUsers (users (run sample_session initial)))
  = Some (users (run sample_session initial), 4).
Proof.
  assert (Hlen : Z.of_nat (length sample_session) < INT_MAX)
    by (vm_compute; reflexivity).
  refine (proj1 (users_file_roundtrip sample_session Hlen _)).
  repeat constructor; discriminate.
Defined.

(** ** Logging in *)

Section LoginFacts.

Lemma find_app_last {A} (f : A → bool) l x :
  (∀ y, In y l → f y = false) → f x = true →
  List.find f (l ++ [x]) = Some x.
Proof.
  intros Hnone Hx. induction l as [|y l IH]; simpl.
  - by rewrite Hx.
  - rewrite (Hnone y) by by left. apply IH. intros z Hz. apply Hnone.
    by right.
Qed.

Lemma registerUser_Ok_inv st name email phone password st' u :
  registerUser st name email phone password = (st', Ok u) →
  email_taken (users st) email = false ∧
  u = mkUser (nextUserId st) name email phone password ∧
  st' = mkManager (users st ++ [u]) (expenses st) (currentUser st)
                  (int_succ (nextUserId st)) (nextExpenseId st).
Proof.
  unfold registerUser.
  destruct (negb (Utils.isValidEmail email)); [done|].
  destruct (negb (Utils.isValidPhone phone)); [done|].
  destruct (email_taken (users st) email); [done|].
  by intros [= <- <-].
Qed.

End LoginFacts.

(** X10. A user who has just registered can log in: after a successful
    [registerUser], [login] with the same email and password succeeds and
    makes that new user the current user, changing nothing else. *)
Theorem register_then_login st name email phone password st' u :
  registerUser st name email phone password = (st', Ok u) →
  login st' email password =
    (mkManager (users st') (expenses st') (Some u) (nextUserId st')
               (nextExpenseId st'), Ok u) ∧
  In u (users st') ∧ user_email u = email ∧ user_password u = password.
Proof.
  intros Hreg.
  apply registerUser_Ok_inv in Hreg as (Hfree & -> & ->).
  unfold login. simpl. rewrite find_app_last.
  - split; [done|]. split; [|done]. apply in_or_app. right. by left.
  - intros y Hy. apply andb_false_iff. left.
    destruct (String.eqb (user_email y) email) eqn:Heq; [|done].
    assert (email_taken (users st) email = true); [|congruence].
    apply existsb_exists. by exists y.
  - simpl. by rewrite !String.eqb_refl.
Qed.

Lemma register_then_login_witness :
  login Demo.one_user "a@b.com" "pw" =
    (mkManager (users Demo.one_user) [] 
               (Some (mkUser 1 "Ann" "a@b.com" "1234567890" "pw")) 2 1,
     Ok (mkUser 1 "Ann" "a@b.com" "1234567890" "pw")).
Proof.
  exact (proj1 (register_then_login
                  initial "Ann" "a@b.com" "1234567890" "pw" Demo.one_user
                  (mkUser 1 "Ann" "a@b.com" "1234567890" "pw") eq_refl)).
Defined.

(** X11. [login] succeeds exactly when some registered user has this email
    and this password, compared character by character. On success the
    current user becomes a registered user with this email and password
    and nothing else changes; on failure the manager is unchanged, so whoever
    was logged in stays logged in. *)
Theorem login_outcome st email password :
  let call := login st email password in
  ((∃ u, snd call = Ok u) ↔
     ∃ u, In u (users st) ∧ user_email u = email ∧
          user_password u = password) ∧
  (∀ u, snd call = Ok u →
     In u (users st) ∧ user_email u = email ∧ user_password u = password ∧
     currentUser (fst call) = Some u ∧
     users (fst call) = users st ∧ expenses (fst call) = expenses st ∧
     nextUserId (fst call) = nextUserId st ∧
     nextExpenseId (fst call) = nextExpenseId st) ∧
  (∀ err, snd call = Err err → err = InvalidCredentials ∧ fst call = st).
Proof.
  intros call. subst call. unfold login.
  destruct (List.find _ (users st)) as [u|] eqn:Hfind; simpl.
  - apply find_some in Hfind as [Hin Hmatch].
    apply andb_true_iff in Hmatch as [He Hp].
    apply String.eqb_eq in He, Hp.
    split; [split; eauto 6|]. split; [|done].
    by intros u' [= <-].
  - split; [|split; [done|by intros err [= <-]]].
    split; [by intros [u Hu]|].
    intros (u & Hin & He & Hp).
    pose proof (find_none _ _ Hfind u Hin) as Hno. simpl in Hno.
    rewrite He, Hp, !String.eqb_refl in Hno. discriminate Hno.
Qed.

Lemma login_outcome_witness :
  snd (login Demo.three_users "b@b.com" "pw")
    = Ok (mkUser 2 "Bob" "b@b.com" "1234567890" "pw") ∧
  login Demo.ann_logged_in "b@b.com" "wrong"
    = (Demo.ann_logged_in, Err InvalidCredentials).
Proof.
  split; [reflexivity|].
  destruct (login_outcome Demo.ann_logged_in "b@b.com" "wrong")
    as (_ & _ & Hfail).
  destruct (Hfail InvalidCredentials eq_refl) as [_ Hsame].
  apply injective_projections; [exact Hsame | reflexivity].
Defined.

(** ** Who appears in a balance *)

Section BalanceKeyFacts.

Lemma spec_contribution_Some focal payer p k d :
  spec_contribution focal payer p = Some (k, d) ↔
  (payer = focal ∧ userId p ≠ focal ∧ k = userId p ∧ d = Credit (share p)) ∨
  (userId p = focal ∧ payer ≠ focal ∧ k = payer ∧ d = Debit (share p)).
Proof.
  unfold spec_contribution. repeat case_decide; split.
  - intros [= <- <-]. left. tauto.
  - intros [(_ & _ & -> & ->)|(? & ? & _)]; [done|tauto].
  - intros [= <- <-]. right. tauto.
  - intros [(? & ? & _)|(_ & _ & -> & ->)]; [tauto|done].
  - done.
  - intros [(? & ? & _)|(? & ? & _)]; tauto.
Qed.

Lemma In_spec_contributions focal ledger k d :
  In (k, d) (spec_contributions focal ledger) ↔
  ∃ e p, In e ledger ∧ In p (participants e) ∧
         spec_contribution focal (createdBy e) p = Some (k, d).
Proof.
  unfold spec_contributions. rewrite in_flat_map. split.
  - intros (e & He & Hin). apply list_elem_of_In, list_elem_of_omap in Hin
      as (p & Hp & Hc). apply list_elem_of_In in Hp. by exists e, p.
  - intros (e & p & He & Hp & Hc). exists e. split; [done|].
    apply list_elem_of_In, list_elem_of_omap. exists p.
    split; [by apply list_elem_of_In | done].
Qed.

Lemma deltas_with_nonempty k cs :
  deltas_with k cs ≠ [] ↔ ∃ d, In (k, d) cs.
Proof.
  unfold deltas_with. split.
  - intros Hne.
    destruct (List.filter (fun c => Z.eqb (fst c) k) cs) as [|[k' d] l]
      eqn:Hf; [done|].
    assert (Hin : In (k', d) (List.filter (fun c => Z.eqb (fst c) k) cs))
      by (rewrite Hf; by left).
    apply filter_In in Hin as [Hin Hk]. simpl in Hk.
    apply Z.eqb_eq in Hk as ->. eauto.
  - intros (d & Hin) Hnil.
    assert (Hf : In (k, d) (List.filter (fun c => Z.eqb (fst c) k) cs)).
    { apply filter_In. split; [done|]. simpl. apply Z.eqb_refl. }
    destruct (List.filter _ cs); [destruct Hf | discriminate Hnil].
Qed.

Lemma is_Some_computeBalance ledger focal k :
  is_Some (computeBalance ledger focal !! k) ↔
  ∃ e, In e ledger ∧ concerns focal k e.
Proof.
  rewrite lookup_computeBalance. unfold spec_balance, netted.
  transitivity (deltas_with k (spec_contributions focal ledger) ≠ []).
  { destruct (deltas_with k _) as [|d ds].
    - split; [by intros [? ?] | done].
    - split; [done | eauto]. }
  rewrite deltas_with_nonempty. split.
  - intros (d & Hin). apply In_spec_contributions in Hin
      as (e & p & He & Hp & Hc).
    exists e. split; [done|].
    apply spec_contribution_Some in Hc
      as [(Hpay & Hne & -> & _)|(Hfoc & Hne & -> & _)].
    + split; [done|]. left. split; [done|]. by apply in_map.
    + split; [done|]. right. split; [done|]. rewrite <- Hfoc.
      by apply in_map.
  - intros (e & He & Hne & [[Hpay Hin]|[Hpay Hin]]);
      apply in_map_iff in Hin as (p & Hid & Hp).
    + exists (Credit (share p)). apply In_spec_contributions.
      exists e, p. split; [done|]. split; [done|].
      apply spec_contribution_Some. left. rewrite Hid. tauto.
    + exists (Debit (share p)). apply In_spec_contributions.
      exists e, p. split; [done|]. split; [done|].
      apply spec_contribution_Some. right. rewrite Hid, Hpay. tauto.
Qed.

Lemma omap_no_contribution focal payer ps :
  payer ≠ focal → (∀ p, In p ps → userId p ≠ focal) →
  omap (spec_contribution focal payer) ps = [].
Proof.
  intros Hpay. induction ps as [|p ps IH]; intros Hall; [done|].
  simpl. unfold spec_contribution at 1.
  assert (userId p ≠ focal) by (apply Hall; by left).
  repeat case_decide; try tauto.
  apply IH. intros q Hq. apply Hall. by right.
Qed.

Lemma omap_irrelevant focal e :
  isRelevant focal e = false →
  omap (spec_contribution focal (createdBy e)) (participants e) = [].
Proof.
  unfold isRelevant. intros Hrel.
  apply orb_false_iff in Hrel as [Hps Hpay].
  apply Z.eqb_neq in Hpay.
  apply omap_no_contribution; [done|].
  intros p Hp Heq.
  assert (existsb (fun p => Z.eqb (userId p) focal) (participants e)
          = true); [|congruence].
  apply existsb_exists. exists p. split; [done|]. by apply Z.eqb_eq.
Qed.

Lemma spec_contributions_relevant focal ledger :
  spec_contributions focal (List.filter (isRelevant focal) ledger)
  = spec_contributions focal ledger.
Proof.
  unfold spec_contributions.
  induction ledger as [|e ledger IH]; [done|]. simpl.
  destruct (isRelevant focal e) eqn:Hrel; simpl.
  - by rewrite IH.
  - by rewrite IH, omap_irrelevant.
Qed.


End BalanceKeyFacts.

(** X12. A user [k] has an entry in the balance of the focal user exactly
    when some expense puts a debt between the two: [k] is not the focal
    user, and either the focal user paid an expense that lists [k] or [k]
    paid an expense that lists the focal user. In particular nobody appears
    in their own balance. *)
Theorem balance_entries ledger focal :
  (∀ k, is_Some (computeBalance ledger focal !! k) ↔
        ∃ e, In e ledger ∧ concerns focal k e) ∧
  computeBalance ledger focal !! focal = None.
Proof.
  split; [intros k; apply is_Some_computeBalance|].
  destruct (computeBalance ledger focal !! focal) eqn:Hself; [|done].
  assert (Hs : is_Some (computeBalance ledger focal !! focal)) by eauto.
  apply is_Some_computeBalance in Hs as (e & _ & Hne & _). done.
Qed.

(** X13. The balance of a user depends only on the expenses that involve
    them: dropping from the ledger every expense that the user neither paid
    nor takes part in (the expenses [exportBalanceToCSV] skips) leaves the
    balance map unchanged. *)
Theorem balance_ignores_other_expenses ledger focal :
  computeBalance (List.filter (isRelevant focal) ledger) focal
  = computeBalance ledger focal.
Proof.
  by rewrite !computeBalance_contributions, spec_contributions_relevant.
Qed.



(** ** The two views of the expenses of a user *)

Section ViewFacts.




End ViewFacts.





(** ** What the two sides of a debt are shown *)

Section BalanceLineFacts.

Lemma entries_mirrored ledger X Y :
  X ≠ Y →
  mirrored (entry (computeBalance ledger X) Y)
           (entry (computeBalance ledger Y) X).
Proof.
  intros Hne. unfold entry. rewrite !lookup_computeBalance.
  unfold spec_balance. rewrite (contributions_flip X Y) by done.
  destruct (deltas_with X (spec_contributions Y ledger)) as [|d ds].
  - apply mirrored_zero.
  - change (mirrored (fold_left applyDelta (map flipDelta (d :: ds)) d_zero)
                     (fold_left applyDelta (d :: ds) d_zero)).
    apply mirrored_fold, mirrored_zero.
Qed.

Lemma tolerance_sf :
  ∃ m e, Prim2SF d_tolerance = S754_finite false m e.
Proof. vm_compute. eauto. Qed.

(** An amount above the display threshold is neither a zero nor NaN, and
    its sign decides the comparison with [0.0]. *)
Lemma above_tolerance_sf a :
  PrimFloat.ltb d_tolerance (PrimFloat.abs a) = true →
  ∃ s, PrimFloat.ltb d_zero a = negb s ∧
       (Prim2SF a = S754_infinity s ∨ ∃ m e, Prim2SF a = S754_finite s m e).
Proof.
  rewrite !FloatAxioms.ltb_spec, FloatAxioms.abs_spec.
  destruct tolerance_sf as (tm & te & ->).
  change (Prim2SF d_zero) with (S754_zero false).
  destruct (Prim2SF a) as [s|s| |s m e]; try done; intros _; exists s.
  - split; [by destruct s | by left].
  - split; [by destruct s | right; eauto].
Qed.

Lemma abs_opp a : PrimFloat.abs (PrimFloat.opp a) = PrimFloat.abs a.
Proof.
  apply Prim2SF_inj. rewrite !FloatAxioms.abs_spec, FloatAxioms.opp_spec.
  by destruct (Prim2SF a).
Qed.

Lemma opp_opp a : PrimFloat.opp (PrimFloat.opp a) = a.
Proof.
  apply Prim2SF_inj. rewrite !FloatAxioms.opp_spec. apply SFopp_involutive.
Qed.

(** Above the threshold, mirrored amounts are exact negations of each other
    and lie on opposite sides of [0.0]. *)
Lemma mirrored_above_tolerance a b :
  mirrored a b →
  PrimFloat.ltb d_tolerance (PrimFloat.abs a) = true →
  b = PrimFloat.opp a ∧
  PrimFloat.ltb d_tolerance (PrimFloat.abs b) = true ∧
  PrimFloat.ltb d_zero b = negb (PrimFloat.ltb d_zero a).
Proof.
  intros Hm Ha.
  destruct (above_tolerance_sf a Ha) as (s & Hsign & Hshape).
  assert (Hab : a = PrimFloat.opp b).
  { destruct Hm as [Hab|[Hz _]]; [done|].
    apply eqb_zero_sf in Hz.
    destruct Hshape as [Hs|(m & e & Hs)]; rewrite Hs in Hz; destruct Hz. }
  assert (Hba : b = PrimFloat.opp a) by by rewrite Hab, opp_opp.
  split; [done|]. split; [by rewrite Hba, abs_opp|].
  rewrite Hsign, Hba, FloatAxioms.ltb_spec, FloatAxioms.opp_spec.
  change (Prim2SF d_zero) with (S754_zero false).
  destruct Hshape as [Hs|(m & e & Hs)]; rewrite Hs; by destruct s.
Qed.

Lemma balanceLine_mirror us X Y a b :
  mirrored a b →
  match balanceLine us Y a with
  | Some (OwesYou _ m) =>
      balanceLine us X b = Some (YouOwe (resolveName us X) m)
  | Some (YouOwe _ m) =>
      balanceLine us X b = Some (OwesYou (resolveName us X) m)
  | None => balanceLine us X b = None
  end.
Proof.
  intros Hm. unfold balanceLine.
  destruct (PrimFloat.ltb d_tolerance (PrimFloat.abs a)) eqn:Ha.
  - destruct (mirrored_above_tolerance a b Hm Ha) as (Hba & Hb & Hsign).
    rewrite Hb, Hsign.
    destruct (PrimFloat.ltb d_zero a); simpl.
    + by rewrite Hba, opp_opp.
    + by rewrite Hba.
  - destruct (PrimFloat.ltb d_tolerance (PrimFloat.abs b)) eqn:Hb; [|done].
    apply mirrored_sym in Hm.
    destruct (mirrored_above_tolerance b a Hm Hb) as (_ & Ha' & _).
    congruence.
Qed.

End BalanceLineFacts.

(** X17. The two sides of a debt are shown consistently. For distinct users
    X and Y and any ledger, take the entry for Y in X's balance and the
    entry for X in Y's balance: when [displayBalance] prints "Y owes you m"
    for X it prints "You owe X m" for Y with the same amount, when it
    prints "You owe Y m" for X it prints "X owes you m" for Y, and when it
    prints nothing on one side (within 0.01 of zero) it prints nothing on
    the other. *)
Theorem balance_lines_mirror ledger us X Y :
  X ≠ Y →
  let a := entry (computeBalance ledger X) Y in
  let b := entry (computeBalance ledger Y) X in
  (∀ m, balanceLine us Y a = Some (OwesYou (resolveName us Y) m) ↔
        balanceLine us X b = Some (YouOwe (resolveName us X) m)) ∧
  (∀ m, balanceLine us Y a = Some (YouOwe (resolveName us Y) m) ↔
        balanceLine us X b = Some (OwesYou (resolveName us X) m)) ∧
  (balanceLine us Y a = None ↔ balanceLine us X b = None).
Proof.
  intros Hne a b.
  pose proof (entries_mirrored ledger X Y Hne) as Hab. fold a b in Hab.
  pose proof (balanceLine_mirror us X Y a b Hab) as Hxy.
  pose proof (balanceLine_mirror us Y X b a (mirrored_sym _ _ Hab)) as Hyx.
  assert (HnY : ∀ l, balanceLine us Y a = Some l →
                  l = OwesYou (resolveName us Y) (match l with
                        OwesYou _ m | YouOwe _ m => m end) ∨
                  l = YouOwe (resolveName us Y) (match l with
                        OwesYou _ m | YouOwe _ m => m end)).
  { unfold balanceLine. intros l.
    destruct (PrimFloat.ltb d_tolerance (PrimFloat.abs a)); [|done].
    destruct (PrimFloat.ltb d_zero a); intros [= <-]; auto. }
  destruct (balanceLine us Y a) as [[n m|n m]|] eqn:Ha;
    destruct (balanceLine us X b) as [[n' m'|n' m']|] eqn:Hb;
    try discriminate Hxy; try discriminate Hyx;
    try (injection Hxy as <- <-); try (injection Hyx as <- <-);
    repeat split; try done; try congruence.
Qed.

Lemma balance_lines_mirror_witness :
  let ledger := expenses Demo.after_lunch in
  let us := users Demo.after_lunch in
  balanceLine us 2 (entry (computeBalance ledger 1) 2)
    = Some (OwesYou "Bob" 30) ∧
  balanceLine us 1 (entry (computeBalance ledger 2) 1)
    = Some (YouOwe "Ann" 30).
Proof.
  intros ledger us.
  assert (Hne : 1 ≠ 2) by lia.
  assert (Hleft : balanceLine us 2 (entry (computeBalance ledger 1) 2)
                  = Some (OwesYou (resolveName us 2) 30))
    by (vm_compute; reflexivity).
  split; [exact Hleft|].
  exact (proj1 (proj1 (balance_lines_mirror ledger us 1 2 Hne) 30%float)
               Hleft).
Defined.

(** X18. The names of the split methods round-trip through the expenses
    file: [stringToSplitMethod] undoes [splitMethodToString]; and any text
    that is not one of the three names is read as EQUAL, without an
    error. *)
Theorem split_method_names :
  (∀ m, stringToSplitMethod (splitMethodToString m) = m) ∧
  (∀ s, s ≠ "EXACT"%string → s ≠ "PERCENTAGE"%string →
        stringToSplitMethod s = EQUAL) ∧
  (∀ s m, stringToSplitMethod s = m → m ≠ EQUAL →
          s = splitMethodToString m).
Proof.
  split; [by intros []|]. split.
  - intros s He Hp. unfold stringToSplitMethod.
    destruct (String.eqb s "EQUAL"); [done|].
    destruct (String.eqb_spec s "EXACT"); [done|].
    by destruct (String.eqb_spec s "PERCENTAGE").
  - intros s m Hs Hm. subst m. unfold stringToSplitMethod in *.
    destruct (String.eqb s "EQUAL"); [done|].
    destruct (String.eqb_spec s "EXACT") as [Heq|]; [by subst s|].
    by destruct (String.eqb_spec s "PERCENTAGE") as [Heq|]; [subst s|].
Qed.

(** ** Facts about the expenses file *)

Lemma stringToSplitMethod_name m :
  stringToSplitMethod (splitMethodToString m) = m.
Proof. by destruct m. Qed.

Section ExpenseFileFacts.

Variable fixed2 : double → string.
Variable stod : string → option double.
Variable reread : double → double.

(** What is taken of the two library conversions: the text written for an
    amount is not empty and holds none of the separators of the file, and
    reading it back gives [reread] of the amount. *)
Hypothesis fixed2_separator_free : ∀ x, separator_free (fixed2 x).
Hypothesis stod_fixed2 : ∀ x, stod (fixed2 x) = Some (reread x).

Lemma participant_roundtrip p :
  - 2 ^ 31 ≤ userId p ≤ INT_MAX →
  ExpenseParticipant_deserialize stod (ExpenseParticipant_serialize fixed2 p)
  = Some (mkParticipant (userId p) (reread (share p))).
Proof.
  intros Hid. unfold ExpenseParticipant_deserialize.
  destruct (fixed2_separator_free (share p)) as (_ & _ & Hc & _ & Hne).
  change (ExpenseParticipant_serialize fixed2 p)
    with (Text.to_string (userId p) +:+ String ":" (fixed2 (share p))).
  unfold Text.split.
  rewrite split_go_field by (by apply contains_to_string).
  rewrite split_go_last by done. rewrite !append_nil_l.
  destruct (fixed2 (share p)) as [|c s] eqn:Hf; [done|]. rewrite <- Hf.
  by rewrite stoi_to_string, stod_fixed2.
Qed.

Lemma participant_text p :
  Utils.contains "|" (ExpenseParticipant_serialize fixed2 p) = false ∧
  Utils.contains "," (ExpenseParticipant_serialize fixed2 p) = false ∧
  Utils.contains newline (ExpenseParticipant_serialize fixed2 p) = false ∧
  ExpenseParticipant_serialize fixed2 p ≠ EmptyString.
Proof.
  destruct (fixed2_separator_free (share p)) as (H1 & H2 & _ & H4 & _).
  change (ExpenseParticipant_serialize fixed2 p)
    with (Text.to_string (userId p) +:+ String ":" (fixed2 (share p))).
  rewrite !contains_append, !contains_to_string by done.
  cbn [Utils.contains orb].
  change (Ascii.eqb ":" "|") with false.
  change (Ascii.eqb ":" ",") with false.
  change (Ascii.eqb ":" newline) with false. cbv iota.
  repeat split; try done.
  pose proof (to_string_nonempty (userId p)) as Hne.
  destruct (Text.to_string (userId p)); [done|]. by rewrite append_cons.
Qed.

Lemma join_text d c fields :
  Ascii.eqb d c = false →
  Forall (fun f => Utils.contains c f = false) fields →
  Utils.contains c (Text.join d fields) = false.
Proof.
  intros Hd. induction 1 as [|f [|g rest] Hf Hall IH]; [done|done|].
  change (Text.join d (f :: g :: rest))
    with (f +:+ String d (Text.join d (g :: rest))).
  rewrite contains_append, Hf. cbn [Utils.contains orb].
  by rewrite Hd.
Qed.

Lemma join_nonempty d fields :
  fields ≠ [] → Forall (fun f => f ≠ EmptyString) fields →
  Text.join d fields ≠ EmptyString.
Proof.
  intros Hne Hall. destruct Hall as [|f [|g rest] Hf Hall]; [done|done|].
  change (Text.join d (f :: g :: rest))
    with (f +:+ String d (Text.join d (g :: rest))).
  destruct f; [done|]. by rewrite append_cons.
Qed.

Lemma collect_participants ps :
  Forall (fun p => - 2 ^ 31 ≤ userId p ≤ INT_MAX) ps →
  collect (ExpenseParticipant_deserialize stod)
          (map (ExpenseParticipant_serialize fixed2) ps)
  = Some (map (fun p => mkParticipant (userId p) (reread (share p))) ps).
Proof.
  induction 1 as [|p ps Hp Hps IH]; [done|].
  simpl. by rewrite participant_roundtrip, IH.
Qed.

Lemma participants_text e :
  participants e ≠ [] →
  let field :=
    Text.join "," (map (ExpenseParticipant_serialize fixed2)
                       (participants e)) in
  Utils.contains "|" field = false ∧
  Utils.contains newline field = false ∧
  field ≠ EmptyString ∧
  Text.split field "," =
    map (ExpenseParticipant_serialize fixed2) (participants e).
Proof.
  intros Hne field. subst field.
  assert (Hall : ∀ P : string → Prop,
            (∀ p, P (ExpenseParticipant_serialize fixed2 p)) →
            Forall P (map (ExpenseParticipant_serialize fixed2)
                          (participants e))).
  { intros P HP. rewrite Forall_map. apply List.Forall_forall.
    intros p _. apply HP. }
  split; [|split; [|split]].
  - apply join_text; [done|]. apply Hall. intros p.
    by destruct (participant_text p) as (? & _).
  - apply join_text; [done|]. apply Hall. intros p.
    by destruct (participant_text p) as (_ & _ & ? & _).
  - apply join_nonempty; [by destruct (participants e)|].
    apply Hall. intros p. by destruct (participant_text p) as (_ & _ & _ & ?).
  - rewrite split_join_go.
    + destruct (last _) as [[|c s]|] eqn:Hlast; try done.
      apply last_Some in Hlast as (l' & Hl').
      assert (Hin : In EmptyString
                (map (ExpenseParticipant_serialize fixed2)
                     (participants e))).
      { rewrite Hl'. apply in_or_app. right. by left. }
      apply in_map_iff in Hin as (p & Hp & _).
      by destruct (participant_text p) as (_ & _ & _ & ?).
    + apply Hall. intros p. by destruct (participant_text p) as (_ & ? & _).
Qed.

Lemma Expense_serialize_nested e :
  Expense_serialize fixed2 e =
    Text.to_string (expense_id e) +:+
    String "|" (description e +:+
    String "|" (fixed2 (amount e) +:+
    String "|" (splitMethodToString (splitMethod e) +:+
    String "|" (Text.to_string (createdBy e) +:+
    String "|" (createdAt e +:+
    String "|" (Text.join ","
                  (map (ExpenseParticipant_serialize fixed2)
                       (participants e)))))))).
Proof. reflexivity. Qed.

Lemma splitMethodToString_plain m d :
  d = "|"%char ∨ d = newline →
  Utils.contains d (splitMethodToString m) = false.
Proof. intros [->| ->]; by destruct m. Qed.

Lemma Expense_roundtrip e :
  fits_line e →
  Expense_deserialize stod (Expense_serialize fixed2 e)
  = Some (Expense_reread reread e).
Proof.
  intros ((Hd & _) & (Ht & _) & Hid & Hc & Hps & Hne).
  destruct (participants_text e Hne) as (Hbar & _ & Hfield & Hsplit).
  destruct (fixed2_separator_free (amount e)) as (Ha & _).
  unfold Expense_deserialize. rewrite Expense_serialize_nested.
  unfold Text.split at 1.
  rewrite split_go_field by (by apply contains_to_string).
  rewrite split_go_field by done.
  rewrite split_go_field by done.
  rewrite split_go_field by (apply splitMethodToString_plain; by left).
  rewrite split_go_field by (by apply contains_to_string).
  rewrite split_go_field by done.
  rewrite split_go_last by done. rewrite !append_nil_l.
  destruct (Text.join "," _) as [|c s] eqn:Hjoin; [done|]. rewrite <- Hjoin.
  rewrite !stoi_to_string, stod_fixed2 by done.
  rewrite Hjoin at 1. rewrite Hsplit, collect_participants by done.
  by rewrite stringToSplitMethod_name.
Qed.






(** X19. An expense written by [Expense::serialize] is read back by
    [Expense::deserialize] with the same id, description, method, creator,
    time stamp and participant ids, its amount and shares being what
    reading gives for what was written (two decimals), provided the ids
    are [int]s, the description and the time stamp are free of ["|"] and of
    newlines, and the expense has a participant. An expense without
    participants is read back as the default record, with id 0. *)
Theorem expense_record_roundtrip e :
  plain (description e) → plain (createdAt e) →
  - 2 ^ 31 ≤ expense_id e ≤ INT_MAX →
  - 2 ^ 31 ≤ createdBy e ≤ INT_MAX →
  Forall (fun p => - 2 ^ 31 ≤ userId p ≤ INT_MAX) (participants e) →
  (participants e ≠ [] →
     Expense_deserialize stod (Expense_serialize fixed2 e)
     = Some (Expense_reread reread e)) ∧
  (participants e = [] →
     Expense_deserialize stod (Expense_serialize fixed2 e)
     = Some Expense_default).
Proof.
  intros Hd Ht Hid Hc Hps. split.
  - intros Hne. by apply Expense_roundtrip.
  - intros Hnil.
    destruct (fixed2_separator_free (amount e)) as (Ha & _).
    unfold Expense_deserialize. rewrite Expense_serialize_nested, Hnil.
    unfold Text.split.
    rewrite split_go_field by (by apply contains_to_string).
    rewrite split_go_field by (by destruct Hd).
    rewrite split_go_field by done.
    rewrite split_go_field by (apply splitMethodToString_plain; by left).
    rewrite split_go_field by (by apply contains_to_string).
    rewrite split_go_field by (by destruct Ht).
    done.
Qed.


End ExpenseFileFacts.

Lemma sample_fixed2_separator_free x : separator_free (sample_fixed2 x).
Proof.
  unfold sample_fixed2.
  destruct (PrimFloat.eqb x 30); [by repeat split|].
  destruct (PrimFloat.eqb x 60); [by repeat split|].
  destruct (PrimFloat.eqb x 90); by repeat split.
Qed.

Lemma sample_stod_fixed2 x :
  sample_stod (sample_fixed2 x) = Some (sample_reread x).
Proof.
  unfold sample_fixed2, sample_reread.
  destruct (PrimFloat.eqb x 30); [done|].
  destruct (PrimFloat.eqb x 60); [done|].
  by destruct (PrimFloat.eqb x 90).
Qed.

Lemma expense_record_roundtrip_witness :
  let e := mkExpense 1 "lunch" 90 EQUAL 1 "2024-01-01 12:00:00"
             [mkParticipant 1 30; mkParticipant 2 30; mkParticipant 3 30] in
  Expense_serialize sample_fixed2 e
    = "1|lunch|90.00|EQUAL|1|2024-01-01 12:00:00|1:30.00,2:30.00,3:30.00"%string
  ∧ Expense_deserialize sample_stod (Expense_serialize sample_fixed2 e)
    = Some e.
Proof.
  intros e. split; [reflexivity|].
  assert (Hplain : ∀ s, Utils.contains "|" s = false →
                        Utils.contains newline s = false → plain s)
    by (intros s H1 H2; by split).
  destruct (expense_record_roundtrip
              sample_fixed2 sample_stod sample_reread
              sample_fixed2_separator_free sample_stod_fixed2 e)
    as [Hkeep _].
  - by apply Hplain.
  - by apply Hplain.
  - simpl. unfold INT_MAX. lia.
  - simpl. unfold INT_MAX. lia.
  - repeat constructor; simpl; unfold INT_MAX; lia.
  - apply Hkeep. discriminate.
Defined.


(** X21. Through the "Add Expense" menu an EXACT or PERCENTAGE expense
    whose participant list leaves out the logged-in user can never be
    created: the menu reads one weight per participant typed, [addExpense]
    then appends the creator, and the counts differ. When the amount and
    the participants pass their checks the call fails with the share count
    error, having consumed an expense id. *)
Theorem menu_weighted_split_needs_creator
    st now desc amt choice ids weights cu :
  currentUser st = Some cu →
  choice = 2 ∨ choice = 3 →
  length weights = length ids →
  ¬ In (user_id cu) ids →
  (∀ e, snd (handleAddExpense st now desc amt choice ids weights) ≠ Ok e) ∧
  (PrimFloat.leb amt d_zero = false →
   first_unknown (users st) (ids ++ [user_id cu]) = None →
   handleAddExpense st now desc amt choice ids weights =
     (mkManager (users st) (expenses st) (currentUser st) (nextUserId st)
                (int_succ (nextExpenseId st)), Err ShareCountMismatch)).
Proof.
  intros Hcu Hchoice Hlen Hnin.
  pose proof (includeCreator_absent ids (user_id cu) Hnin) as Hps.
  assert (Hcount : length weights ≠ length (ids ++ [user_id cu])).
  { rewrite length_app. simpl. lia. }
  set (method := if choice =? 2 then EXACT else PERCENTAGE).
  assert (Hcall : handleAddExpense st now desc amt choice ids weights
                  = addExpense st now desc amt method ids weights).
  { unfold handleAddExpense, method. by destruct Hchoice as [->| ->]. }
  assert (Hsplit : splitShares amt method (ids ++ [user_id cu]) weights
                   = Err ShareCountMismatch).
  { unfold method. destruct (choice =? 2).
    - by apply exact_count_mismatch.
    - by apply percentage_count_mismatch. }
  rewrite Hcall. split.
  - intros e He.
    destruct (addExpense st now desc amt method ids weights) as [st' r]
      eqn:Hadd. simpl in He. subst r.
    apply addExpense_Ok_inv in Hadd
      as (cu' & ps & Hcu' & _ & _ & Hok & _).
    rewrite Hcu in Hcu'. injection Hcu' as <-.
    rewrite Hps, Hsplit in Hok. discriminate Hok.
  - intros Hamt Hunk.
    apply (failed_split_moves_counter _ _ _ _ _ _ _ cu); try done;
      by rewrite Hps.
Qed.

Lemma menu_weighted_split_needs_creator_witness :
  handleAddExpense Demo.ann_logged_in "2024-01-02 09:00:00" "gift" 100 2
                   [2; 3] [50; 50]%float
  = (mkManager (users Demo.ann_logged_in) []
               (currentUser Demo.ann_logged_in) 4 2,
     Err ShareCountMismatch).
Proof.
  assert (Hnin : ¬ In 1 [2; 3]) by (intros [H|[H|[]]]; discriminate H).
  destruct (menu_weighted_split_needs_creator
              Demo.ann_logged_in "2024-01-02 09:00:00" "gift" 100%float 2
              [2; 3] [50; 50]%float
              (mkUser 1 "Ann" "a@b.com" "1234567890" "pw")
              eq_refl (or_introl eq_refl) eq_refl Hnin) as [_ Hfail].
  exact (Hfail eq_refl eq_refl).
Defined.

Section ContactFacts.

Lemma all_digits_contains c s :
  Utils.isdigit c = false → Utils.all_digits s = true →
  Utils.contains c s = false.
Proof.
  intros Hc. induction s as [|a s IH]; [done|].
  cbn [Utils.all_digits Utils.contains].
  destruct (Utils.isdigit a) eqn:Ha; [|done]. cbn [negb]. intros Hs.
  destruct (Ascii.eqb_spec a c) as [->|_]; [congruence|]. by apply IH.
Qed.

Lemma isValidPhone_inv phone :
  Utils.isValidPhone phone = true →
  (10 ≤ String.length phone)%nat ∧ Utils.all_digits phone = true.
Proof.
  unfold Utils.isValidPhone.
  destruct (String.length phone =? 0)%nat eqn:H0; [done|].
  destruct (String.length phone <? 10)%nat eqn:H10; [done|].
  apply Nat.ltb_ge in H10. by cbn [orb].
Qed.

Lemma users_apply_op st op u :
  In u (users (apply_op st op)) →
  In u (users st) ∨
  (Utils.isValidEmail (user_email u) = true ∧
   Utils.isValidPhone (user_phone u) = true).
Proof.
  destruct op as [name email phone password|email password|
                  |now desc amt method ids sh]; cbn [apply_op].
  - unfold registerUser.
    destruct (Utils.isValidEmail email) eqn:He; cbn [negb]; [|by left].
    destruct (Utils.isValidPhone phone) eqn:Hp; cbn [negb]; [|by left].
    destruct (email_taken (users st) email); [by left|].
    cbn [fst users]. rewrite in_app_iff.
    intros [Hin|[<-|[]]]; [by left|by right].
  - unfold login. destruct (List.find _ _); by left.
  - by left.
  - destruct (addExpense st now desc amt method ids sh) as [st' [e|err]]
      eqn:Hcall; cbn [fst].
    + apply addExpense_Ok_inv in Hcall as (cu & ps & _ & _ & _ & _ & _ & ->).
      by left.
    + apply addExpense_Err_inv in Hcall as (-> & _). by left.
Qed.

Lemma users_run st ops u :
  In u (users (run ops st)) →
  In u (users st) ∨
  (Utils.isValidEmail (user_email u) = true ∧
   Utils.isValidPhone (user_phone u) = true).
Proof.
  revert st. induction ops as [|op ops IH]; intros st; [by left|].
  cbn [run fold_left]. intros Hin.
  destruct (IH _ Hin) as [Hin'|Hv]; [|by right].
  by apply users_apply_op in Hin'.
Qed.

End ContactFacts.

(** X22. Every user in the registry of a manager that started empty passed
    the two contact checks: the email contains an at sign and a dot, and the
    phone is at least ten characters, all of them digits; so the phone field
    never holds a field or line separator of the users file. *)
Theorem registered_contacts_valid ops u :
  In u (users (run ops initial)) →
  Utils.contains "@" (user_email u) = true ∧
  Utils.contains "." (user_email u) = true ∧
  (10 ≤ String.length (user_phone u))%nat ∧
  Utils.all_digits (user_phone u) = true ∧
  plain (user_phone u).
Proof.
  intros Hin. apply users_run in Hin as [[]|[He Hp]].
  unfold Utils.isValidEmail in He. apply andb_prop in He as [Hat Hdot].
  apply isValidPhone_inv in Hp as [Hlen Hdig].
  repeat split; try done; by apply all_digits_contains.
Qed.

Lemma registered_contacts_valid_witness :
  plain (user_phone (mkUser 2 "Bob" "b@b.com" "1234567890" "pw")).
Proof.
  assert (Hin : In (mkUser 2 "Bob" "b@b.com" "1234567890" "pw")
                   (users (run sample_session initial)))
    by (vm_compute; right; left; reflexivity).
  exact (proj2 (proj2 (proj2 (proj2
           (registered_contacts_valid sample_session _ Hin))))).
Defined.

Section TrimFacts.

Lemma all_blank_first pre rest :
  Text.all_blank pre = true →
  Text.find_first_not_blank (pre +:+ rest)
  = (fun i => (String.length pre + i)%nat) <$> Text.find_first_not_blank rest.
Proof.
  induction pre as [|c pre IH]; intros Hb.
  - rewrite append_nil_l. simpl. by destruct (Text.find_first_not_blank rest).
  - cbn [Text.all_blank] in Hb. apply andb_prop in Hb as [Hc Hb].
    rewrite append_cons. cbn [Text.find_first_not_blank]. rewrite Hc, IH by done.
    by destruct (Text.find_first_not_blank rest).
Qed.

Lemma all_blank_last post :
  Text.all_blank post = true → Text.find_last_not_blank post = None.
Proof.
  induction post as [|c post IH]; [done|].
  cbn [Text.all_blank Text.find_last_not_blank].
  intros [Hc Hb]%andb_prop. by rewrite IH, Hc.
Qed.

Lemma last_shift pre rest i :
  Text.find_last_not_blank rest = Some i →
  Text.find_last_not_blank (pre +:+ rest) = Some (String.length pre + i)%nat.
Proof.
  intros Hi. induction pre as [|c pre IH].
  - by rewrite append_nil_l.
  - rewrite append_cons. cbn [Text.find_last_not_blank]. by rewrite IH.
Qed.

Lemma core_last c core post :
  Text.ends_blank (String c core) = false →
  Text.all_blank post = true →
  Text.find_last_not_blank (String c core +:+ post)
  = Some (String.length core).
Proof.
  intros He Hb. revert c He. induction core as [|c' core IH]; intros c He.
  - rewrite append_cons, append_nil_l. cbn [Text.find_last_not_blank].
    rewrite all_blank_last by done. cbn [Text.ends_blank] in He.
    by rewrite He.
  - rewrite append_cons. cbn [Text.find_last_not_blank].
    rewrite (IH c') by done. done.
Qed.

Lemma substring_skip pre n rest :
  String.substring (String.length pre) n (pre +:+ rest)
  = String.substring 0 n rest.
Proof.
  induction pre as [|c pre IH]; [by rewrite append_nil_l|].
  by rewrite append_cons.
Qed.

Lemma substring_prefix core post :
  String.substring 0 (String.length core) (core +:+ post) = core.
Proof.
  induction core as [|c core IH].
  - rewrite append_nil_l. by destruct post.
  - rewrite append_cons. cbn [String.length String.substring]. by rewrite IH.
Qed.

Lemma trim_all_blank str :
  Text.all_blank str = true → Text.trim str = EmptyString.
Proof.
  intros Hb. unfold Text.trim.
  rewrite <- (append_nil_r str), all_blank_first by done. done.
Qed.

Lemma trim_core pre core post :
  Text.all_blank pre = true → Text.all_blank post = true →
  Text.starts_blank core = false → Text.ends_blank core = false →
  Text.trim (pre +:+ core +:+ post) = core.
Proof.
  intros Hpre Hpost Hs He. destruct core as [|c core].
  - rewrite append_nil_l. apply trim_all_blank.
    clear Hs He. induction pre as [|a pre IH]; [by rewrite append_nil_l|].
    rewrite append_cons. cbn [Text.all_blank] in *.
    apply andb_prop in Hpre as [-> Hpre]. by apply IH.
  - unfold Text.trim. rewrite all_blank_first by done.
    rewrite (last_shift pre _ _ (core_last c core post He Hpost)).
    rewrite append_cons. cbn [Text.find_first_not_blank].
    cbn [Text.starts_blank] in Hs. rewrite Hs. cbn [fmap option_fmap option_map].
    rewrite Nat.add_0_r.
    replace (String.length pre + String.length core - String.length pre + 1)%nat
      with (String.length (String c core)) by (cbn [String.length]; lia).
    rewrite <- append_cons, substring_skip. apply substring_prefix.
Qed.

Lemma trim_parts str :
  ∃ pre core post,
    str = pre +:+ core +:+ post ∧
    Text.all_blank pre = true ∧ Text.all_blank post = true ∧
    Text.starts_blank core = false ∧ Text.ends_blank core = false.
Proof.
  induction str as [|c str (pre & core & post & -> & Hpre & Hpost & Hs & He)].
  - by exists EmptyString, EmptyString, EmptyString.
  - destruct (Text.is_blank c) eqn:Hc.
    + exists (String c pre), core, post. rewrite append_cons.
      cbn [Text.all_blank]. by rewrite Hc, Hpre.
    + destruct core as [|a core].
      * exists EmptyString, (String c EmptyString), (pre +:+ post).
        rewrite !append_nil_l, append_cons, append_nil_l.
        repeat split; try done.
        clear -Hpre Hpost. induction pre as [|a pre IH];
          [by rewrite append_nil_l|].
        rewrite append_cons. cbn [Text.all_blank] in *.
        apply andb_prop in Hpre as [-> Hpre]. by apply IH.
      * exists EmptyString, (String c (pre +:+ String a core)), post.
        rewrite !append_nil_l.
        rewrite (append_cons c (pre +:+ String a core) post), append_assoc.
        repeat split; try done.
        clear -He. revert c. induction pre as [|b pre IH]; intros c.
        -- by rewrite append_nil_l.
        -- rewrite append_cons. cbn [Text.ends_blank]. apply IH.
Qed.

End TrimFacts.

(** X23. [trim] removes exactly the blanks around a text: for a text made of
    leading blanks, a core that neither starts nor ends with a blank, and
    trailing blanks, the result is the core. Blanks are the space, tab, line
    feed and carriage return. *)
Theorem trim_strips pre core post :
  Text.all_blank pre = true → Text.all_blank post = true →
  Text.starts_blank core = false → Text.ends_blank core = false →
  Text.trim (pre +:+ core +:+ post) = core.
Proof. apply trim_core. Qed.

Lemma trim_strips_witness :
  Text.trim ("  " +:+ "a b" +:+ " ") = "a b"%string.
Proof. by apply trim_strips. Defined.

(** X24. For every text the result of [trim] neither starts nor ends with a
    blank, a text of blanks only gives the empty text, and trimming twice
    is trimming once. *)
Theorem trim_result str :
  Text.starts_blank (Text.trim str) = false ∧
  Text.ends_blank (Text.trim str) = false ∧
  (Text.all_blank str = true → Text.trim str = EmptyString) ∧
  Text.trim (Text.trim str) = Text.trim str.
Proof.
  destruct (trim_parts str) as (pre & core & post & -> & Hpre & Hpost & Hs & He).
  rewrite trim_core by done. repeat split; try done.
  - intros Hb. rewrite <- (trim_core pre core post) by done.
    by apply trim_all_blank.
  - rewrite <- (append_nil_l core) at 1. rewrite <- (append_nil_r core) at 1.
    by apply trim_core.
Qed.
